(** * Batching proxy (proxy.py): queue set, batch selection, demultiplexer

    A shallow embedding of [proxy.py].  Python objects that the code mutates
    in place (the three deques, [last_turn], [strategy], the futures of the
    work items) live in one explicit [State] record that every operation
    threads through.  A work item is identified by its [id] (the uuid4 drawn
    in [_Item.__init__]); its future lives in the store [futs] under that
    key, which is how object identity ([deque.remove], [itm.fut]) is
    rendered.

    Cooperative scheduling: the handlers never await while they hold
    [q_lock], so every critical section is atomic.  The dispatcher yields at
    [asyncio.sleep] and at the downstream call; the handler activations that
    run at such a point are given as a list of [Event]s. *)

From Stdlib Require Import Ascii String Lia.
From stdpp Require Import gmap strings list sorting.

(* ------------------------------------------------------------------ *)
(** ** Configuration *)

Definition MAX_BATCH : nat := 5.
Definition BATCH_TIMEOUT_MS : nat := 50.

(** The idle sleep of the dispatcher, [asyncio.sleep(0.005)], in ms. *)
Definition IDLE_SLEEP_MS : nat := 5.

Inductive _Strategy := sjf | fair | fcfs.

Global Instance _Strategy_eq_dec : EqDecision _Strategy.
Proof. solve_decision. Defined.

(* ------------------------------------------------------------------ *)
(** ** Python values that flow through the demultiplexer

    A cell of a result buffer is either Python's [None] or a string, and so
    is a label decoded from the downstream JSON ([null] decodes to [None]). *)

Definition pyval := option string.

(** [x is not None] *)
Definition is_not_None (x : pyval) : bool :=
  match x with Some _ => true | None => false end.

(** [str.upper], on the ASCII letters. *)
Definition upper_ascii (c : ascii) : ascii :=
  let n := nat_of_ascii c in
  if ((97 <=? n)%nat && (n <=? 122)%nat)%bool then ascii_of_nat (n - 32) else c.

Fixpoint upper (s : string) : string :=
  match s with
  | EmptyString => EmptyString
  | String c s' => String (upper_ascii c) (upper s')
  end.

(* ------------------------------------------------------------------ *)
(** ** Queue item *)

(** [_Item.__slots__], without [ts] (wall-clock time) and with [fut] kept in
    the store of the state under the key [id]. *)
Record _Item := mk_Item {
  id : string;
  cid : string;
  seqs : list string;
  maxlen : nat
}.

(** [max(map(len, seqs))]; [max] of an empty sequence raises [ValueError]. *)
Definition max_len (seqs : list string) : option nat :=
  match seqs with
  | [] => None
  | s :: rest => Some (foldl Nat.max (String.length s) (String.length <$> rest))
  end.

(** [_Item.__init__], given the uuid4 that it draws. *)
Definition _Item__init__ (uuid cid : string) (seqs : list string) : option _Item :=
  m ← max_len seqs; Some (mk_Item uuid cid seqs m).

(** [_Item.__lt__] *)
Definition _Item__lt__ (self other : _Item) : bool :=
  (maxlen self <? maxlen other)%nat.

(** Python's [is] on items. *)
Definition same_item (x y : _Item) : bool := String.eqb (id x) (id y).

(** [asyncio.Future]: pending, cancelled, or finished with a result or with
    an exception (its [str]). *)
Inductive Future :=
  | Pending
  | Cancelled
  | FutResult (results : list pyval)
  | FutException (msg : string).

(** [fut.done()] *)
Definition done_ (f : Future) : bool :=
  match f with Pending => false | _ => true end.

(* ------------------------------------------------------------------ *)
(** ** Server state *)

Record State := mk_State {
  strategy : _Strategy;
  fifo_q : list _Item;
  q_a : list _Item;
  q_b : list _Item;
  last_turn : string;
  futs : gmap string Future
}.

(** The module-level initial values; [DEFAULT] is the strategy read from
    the environment. *)
Definition init_state (DEFAULT : _Strategy) : State :=
  mk_State DEFAULT [] [] [] "B" ∅.

Definition set_strategy (s : _Strategy) (st : State) : State :=
  mk_State s (fifo_q st) (q_a st) (q_b st) (last_turn st) (futs st).
Definition set_fifo_q (q : list _Item) (st : State) : State :=
  mk_State (strategy st) q (q_a st) (q_b st) (last_turn st) (futs st).
Definition set_q_a (q : list _Item) (st : State) : State :=
  mk_State (strategy st) (fifo_q st) q (q_b st) (last_turn st) (futs st).
Definition set_q_b (q : list _Item) (st : State) : State :=
  mk_State (strategy st) (fifo_q st) (q_a st) q (last_turn st) (futs st).
Definition set_last_turn (t : string) (st : State) : State :=
  mk_State (strategy st) (fifo_q st) (q_a st) (q_b st) t (futs st).
Definition set_futs (f : gmap string Future) (st : State) : State :=
  mk_State (strategy st) (fifo_q st) (q_a st) (q_b st) (last_turn st) f.

(* ------------------------------------------------------------------ *)
(** ** Ingress handler *)

Inductive Response :=
  | Reply200 (results : list pyval) (proxy_latency_ms : Z)
  | HTTPException (status : nat) (detail : string).

(** What [proxy_classify] has done when it reaches [await itm.fut]. *)
Inductive Admission :=
  | Rejected (r : Response)
  | Enqueued (itm : _Item).

(** [proxy_classify] up to [await itm.fut].  [x_customer_id] is the header
    if present ([Header(default="A")]), [body] is [body.sequences].  The
    constructor cannot raise after the bounds check (see
    [item_init_after_bounds_check]); an exception that escapes a handler
    is answered with 500. *)
Definition proxy_classify (x_customer_id : option string) (body : list string)
    (uuid : string) (st : State) : Admission * State :=
  if negb ((1 <=? length body)%nat && (length body <=? MAX_BATCH)%nat) then
    (Rejected (HTTPException 400 "Need 1–5 sequences"), st)
  else
    match _Item__init__ uuid (upper (default "A" x_customer_id)) body with
    | None => (Rejected (HTTPException 500 "Internal Server Error"), st)
    | Some itm =>
        let st1 := set_futs (<[id itm := Pending]> (futs st)) st in
        let st2 :=
          if decide (strategy st1 = fair) then
            if String.eqb (cid itm) "A"
            then set_q_a (q_a st1 ++ [itm]) st1
            else set_q_b (q_b st1 ++ [itm]) st1
          else set_fifo_q (fifo_q st1 ++ [itm]) st1 in
        (Enqueued itm, st2)
    end.

(** [proxy_classify] from [await itm.fut] on: [None] while the handler is
    suspended (or was cancelled with its future); [latency] is
    [itm.latency()]. *)
Definition proxy_classify_resume (f : Future) (latency : Z) : option Response :=
  match f with
  | Pending | Cancelled => None
  | FutResult r => Some (Reply200 r latency)
  | FutException e =>
      Some (HTTPException 500 ("Downstream service error: " +:+ e))
  end.

(** [change], the handler of [POST /strategy]. *)
Definition change (new_strategy : _Strategy) (st : State) : State :=
  set_strategy new_strategy st.

(** A handler activation. *)
Inductive Event :=
  | EvClassify (x_customer_id : option string) (body : list string) (uuid : string)
  | EvChange (new_strategy : _Strategy).

Definition handle (e : Event) (st : State) : State :=
  match e with
  | EvClassify h body uuid => (proxy_classify h body uuid st).2
  | EvChange s => change s st
  end.

Definition handle_all (evs : list Event) (st : State) : State :=
  foldl (λ s e, handle e s) st evs.

(* ------------------------------------------------------------------ *)
(** ** Dispatcher: batch selection *)

(** Suspension points of the dispatcher that the claims speak about. *)
Inductive Effect :=
  | Sleep (ms : nat)
  | Post (flat : list string).

Global Instance Effect_eq_dec : EqDecision Effect.
Proof. solve_decision. Defined.

(** [total_sequences + len(item.seqs) <= MAX_BATCH] *)
Definition fits (total_sequences : nat) (item : _Item) : bool :=
  (total_sequences + length (seqs item) <=? MAX_BATCH)%nat.

(** The loop that occurs four times in [_dispatcher]:
    [while q and total_sequences + len(q[0].seqs) <= MAX_BATCH:
       item = q.popleft(); batch.append(item);
       total_sequences += len(item.seqs)].
    Returns the deque, the batch and the counter after the loop. *)
Fixpoint pop_while_fits (q batch : list _Item) (total_sequences : nat)
    : list _Item * list _Item * nat :=
  match q with
  | [] => (q, batch, total_sequences)
  | item :: q' =>
      if fits total_sequences item
      then pop_while_fits q' (batch ++ [item])
             (total_sequences + length (seqs item))
      else (q, batch, total_sequences)
  end.

(** [sorted(fifo_q)]: Python's sort is stable and compares with [__lt__]
    only; a stable insertion sort with the same comparison returns the same
    list. *)
Fixpoint sorted_insert (x : _Item) (l : list _Item) : list _Item :=
  match l with
  | [] => [x]
  | y :: l' => if _Item__lt__ y x then y :: sorted_insert x l' else x :: l
  end.

Definition sorted (q : list _Item) : list _Item := foldr sorted_insert [] q.

(** [deque.remove(item)]: drops the first element equal to [item] (items
    define no [__eq__], so equality is identity).  The item is always
    present when the dispatcher calls it; an absent item is rendered as no
    change. *)
Fixpoint deque_remove (item : _Item) (q : list _Item) : list _Item :=
  match q with
  | [] => []
  | y :: q' => if same_item y item then q' else y :: deque_remove item q'
  end.

(** The [for item in sorted_items] loop of the SJF branch, with its
    [break]. *)
Fixpoint sjf_loop (sorted_items fifo batch : list _Item) (total_sequences : nat)
    : list _Item * list _Item * nat :=
  match sorted_items with
  | [] => (fifo, batch, total_sequences)
  | item :: rest =>
      if fits total_sequences item
      then sjf_loop rest (deque_remove item fifo) (batch ++ [item])
             (total_sequences + length (seqs item))
      else (fifo, batch, total_sequences)
  end.

(** What a selection produces: the batch, the state it leaves and the
    suspension points it went through. *)
Record Selection := mk_Selection {
  batch : list _Item;
  total_sequences : nat;
  after : State;
  trace : list Effect
}.

(** The SJF branch. *)
Definition select_sjf (st : State) : Selection :=
  match fifo_q st with
  | [] => mk_Selection [] 0 st []
  | _ =>
      let '(fifo, b, t) := sjf_loop (sorted (fifo_q st)) (fifo_q st) [] 0 in
      mk_Selection b t (set_fifo_q fifo st) []
  end.

(** ["A" if last_turn == "B" else "B"] *)
Definition next_turn (last_turn : string) : string :=
  if String.eqb last_turn "B" then "A" else "B".

(** The first [if] of the FAIR branch: the head of [primary] opens the
    batch if it fits, and only then is [last_turn] assigned.  Returns
    [primary], [batch], [total_sequences] and [last_turn] after it. *)
Definition fair_open (primary : list _Item) (turn last_turn : string)
    : list _Item * list _Item * nat * string :=
  match primary with
  | item :: primary' =>
      if fits 0 item
      then (primary', [item], 0 + length (seqs item), turn)
      else (primary, [], 0, last_turn)
  | [] => (primary, [], 0, last_turn)
  end.

(** The FAIR branch.  [primary] and [secondary] alias [q_a] and [q_b]; the
    deques are written back at the end. *)
Definition select_fair (st : State) : Selection :=
  match q_a st, q_b st with
  | [], [] => mk_Selection [] 0 st []
  | _, _ =>
      let turn := next_turn (last_turn st) in
      let '(primary, secondary) :=
        if String.eqb turn "A" then (q_a st, q_b st) else (q_b st, q_a st) in
      let '(primary1, b1, t1, lt1) := fair_open primary turn (last_turn st) in
      let '(primary2, b2, t2) := pop_while_fits primary1 b1 t1 in
      let '(secondary2, b3, t3) := pop_while_fits secondary b2 t2 in
      let st' :=
        if String.eqb turn "A"
        then set_q_b secondary2 (set_q_a primary2 st)
        else set_q_a secondary2 (set_q_b primary2 st) in
      mk_Selection b3 t3 (set_last_turn lt1 st') []
  end.

(** The FCFS branch.  [during_wait] are the handler activations that run
    while the dispatcher sleeps [BATCH_TIMEOUT_MS]; they run only if it
    does sleep. *)
Definition select_fcfs (during_wait : list Event) (st : State) : Selection :=
  let '(fifo1, b1, t1) := pop_while_fits (fifo_q st) [] 0 in
  let st1 := set_fifo_q fifo1 st in
  match b1 with
  | _ :: _ =>
      if (t1 <? MAX_BATCH)%nat then
        let st2 := handle_all during_wait st1 in
        let '(fifo2, b2, t2) := pop_while_fits (fifo_q st2) b1 t1 in
        mk_Selection b2 t2 (set_fifo_q fifo2 st2) [Sleep BATCH_TIMEOUT_MS]
      else mk_Selection b1 t1 st1 []
  | [] => mk_Selection b1 t1 st1 []
  end.

(** The [if / elif / else] on [strategy] at the head of a cycle. *)
Definition select (during_wait : list Event) (st : State) : Selection :=
  match strategy st with
  | sjf => select_sjf st
  | fair => select_fair st
  | fcfs => select_fcfs during_wait st
  end.

(* ------------------------------------------------------------------ *)
(** ** Dispatcher: flatten, downstream call, failure path, demux *)

(** [flat] and [idx_map] *)
Definition flatten (batch : list _Item) : list string :=
  batch ≫= seqs.

Definition index_map (batch : list _Item) : list (_Item * nat) :=
  batch ≫= λ itm, imap (λ i _, (itm, i)) (seqs itm).

(** What the [try] block ends with: [labels], or an exception (transport
    error, [raise_for_status], malformed body) with its [str]. *)
Inductive Downstream :=
  | Labels (labels : list pyval)
  | Raised (e : string).

(** [for itm in batch: if not itm.fut.done(): itm.fut.set_exception(...)] *)
Definition fail_batch (e : string) (batch : list _Item)
    (fs : gmap string Future) : gmap string Future :=
  foldl (λ fs itm,
           alter (λ f, if done_ f then f else FutException e) (id itm) fs)
        fs batch.

(** [request_results]: a dict in insertion order, from [itm.id] to the
    item and its result buffer. *)
Definition Results := list (string * (_Item * list pyval)).

(** One turn of the first demux loop:
    [if itm.id not in request_results: request_results[itm.id] = {...}]
    then [request_results[itm.id]['results'][pos] = lab]. *)
Fixpoint store_label (itm : _Item) (pos : nat) (lab : pyval) (rr : Results)
    : Results :=
  match rr with
  | [] => [(id itm, (itm, <[pos := lab]> (replicate (length (seqs itm)) None)))]
  | (k, (it, results)) :: rr' =>
      if String.eqb k (id itm)
      then (k, (it, <[pos := lab]> results)) :: rr'
      else (k, (it, results)) :: store_label itm pos lab rr'
  end.

(** [for (itm, pos), lab in zip(idx_map, labels)] *)
Definition group_labels (idx_map : list (_Item * nat)) (labels : list pyval)
    : Results :=
  foldl (λ rr e, store_label e.1.1 e.1.2 e.2 rr) [] (zip idx_map labels).

(** [all(x is not None for x in results) and not item.fut.done()], then
    [item.fut.set_result(results)]; otherwise only a log line. *)
Definition resolve_one (fs : gmap string Future)
    (entry : string * (_Item * list pyval)) : gmap string Future :=
  let '(_, (item, results)) := entry in
  match fs !! id item with
  | Some f =>
      if forallb is_not_None results && negb (done_ f)
      then <[id item := FutResult results]> fs
      else fs
  | None => fs
  end.

(** The demultiplexer after a successful call. *)
Definition demux (batch : list _Item) (labels : list pyval)
    (fs : gmap string Future) : gmap string Future :=
  foldl resolve_one fs (group_labels (index_map batch) labels).

(** The part of a cycle after the downstream call has returned. *)
Definition complete (batch : list _Item) (r : Downstream) (st : State) : State :=
  match r with
  | Raised e => set_futs (fail_batch e batch (futs st)) st
  | Labels labels => set_futs (demux batch labels (futs st)) st
  end.

(** The schedule of one cycle: the handlers that run during the FCFS wait
    and during the downstream call, and what the call ends with. *)
Record Cycle := mk_Cycle {
  during_wait : list Event;
  during_call : list Event;
  downstream : Downstream
}.

(** One turn of [while True] in [_dispatcher]. *)
Definition dispatcher_cycle (c : Cycle) (st : State) : State * list Effect :=
  let sel := select (during_wait c) st in
  match batch sel with
  | [] => (after sel, Sleep 0 :: trace sel ++ [Sleep IDLE_SLEEP_MS])
  | _ =>
      let st' := handle_all (during_call c) (after sel) in
      (complete (batch sel) (downstream c) st',
       Sleep 0 :: trace sel ++ [Post (flatten (batch sel))])
  end.

(** [_dispatcher], for as many turns as there are schedules. *)
Fixpoint _dispatcher (cycles : list Cycle) (st : State) : State * list Effect :=
  match cycles with
  | [] => (st, [])
  | c :: rest =>
      let '(st1, tr1) := dispatcher_cycle c st in
      let '(st2, tr2) := _dispatcher rest st1 in
      (st2, tr1 ++ tr2)
  end.

(** A run of the server: handler activations between the cycles of the
    dispatcher. *)
Inductive Step :=
  | SHandler (e : Event)
  | SCycle (c : Cycle).

Definition step (s : Step) (st : State) : State :=
  match s with
  | SHandler e => handle e st
  | SCycle c => (dispatcher_cycle c st).1
  end.

Definition run (steps : list Step) (st : State) : State :=
  foldl (λ st s, step s st) st steps.

(** Sum of [len(item.seqs)] over a batch. *)
Definition batch_size (b : list _Item) : nat :=
  sum_list_with (λ itm, length (seqs itm)) b.

(* ------------------------------------------------------------------ *)
(** ** Definitions that follow the specification's wording *)

(** SJF as the specification words it: the walk over the sorted view does
    not stop at an item that does not fit, it skips it and goes on
    (best-fit-after-sort). *)
Fixpoint sjf_loop_best_fit (sorted_items fifo batch : list _Item)
    (total_sequences : nat) : list _Item * list _Item * nat :=
  match sorted_items with
  | [] => (fifo, batch, total_sequences)
  | item :: rest =>
      if fits total_sequences item
      then sjf_loop_best_fit rest (deque_remove item fifo) (batch ++ [item])
             (total_sequences + length (seqs item))
      else sjf_loop_best_fit rest fifo batch total_sequences
  end.

Definition select_sjf_best_fit (st : State) : Selection :=
  match fifo_q st with
  | [] => mk_Selection [] 0 st []
  | _ =>
      let '(fifo, b, t) :=
        sjf_loop_best_fit (sorted (fifo_q st)) (fifo_q st) [] 0 in
      mk_Selection b t (set_fifo_q fifo st) []
  end.

(** Some queue of the queue set holds an item. *)
Definition any_queue_nonempty (st : State) : Prop :=
  fifo_q st ≠ [] ∨ q_a st ≠ [] ∨ q_b st ≠ [].

(** The queues that the active strategy reads hold an item. *)
Definition active_queue_nonempty (st : State) : Prop :=
  match strategy st with
  | fair => q_a st ≠ [] ∨ q_b st ≠ []
  | _ => fifo_q st ≠ []
  end.

(** Every queued item went through the bounds check of the handler. *)
Definition admissible (itm : _Item) : Prop :=
  1 ≤ length (seqs itm) ≤ MAX_BATCH.

Definition queues_admissible (st : State) : Prop :=
  Forall admissible (fifo_q st) ∧ Forall admissible (q_a st)
  ∧ Forall admissible (q_b st).

(** The number of [BATCH_TIMEOUT_MS] waits in a trace. *)
Definition timeout_waits (tr : list Effect) : nat :=
  length (filter (λ e, e = Sleep BATCH_TIMEOUT_MS) tr).

(** The order that [__lt__] induces on items. *)
Definition maxlen_le (x y : _Item) : Prop := maxlen x ≤ maxlen y.

(** The deque that a turn designates under FAIR. *)
Definition queue_of (turn : string) (st : State) : list _Item :=
  if String.eqb turn "A" then q_a st else q_b st.

(** No cycle of the dispatcher has yet started under FAIR. *)
Fixpoint no_fair_cycle (steps : list Step) (st : State) : Prop :=
  match steps with
  | [] => True
  | s :: rest =>
      match s with SCycle _ => strategy st ≠ fair | SHandler _ => True end
      ∧ no_fair_cycle rest (step s st)
  end.

(** The label window of the item at offset [o] of the flattened batch. *)
Definition window (o n : nat) (labels : list pyval) : list pyval :=
  take n (drop o labels).

(** What a run keeps true as long as no cycle has started under FAIR:
    [last_turn] is the initial [B], and the class-A queue holds class-A
    items only. *)
Definition before_fair (st : State) : Prop :=
  last_turn st = "B" ∧ Forall (λ itm, cid itm = "A") (q_a st).

(** What [fut.set_exception] leaves in a future of a failed batch. *)
Definition failed (e : string) (f : Future) : Future :=
  if done_ f then f else FutException e.

(** [store_label] read on the dict as a finite map. *)
Definition store_label_map (itm : _Item) (pos : nat) (lab : pyval)
    (m : gmap string (_Item * list pyval)) : gmap string (_Item * list pyval) :=
  match m !! id itm with
  | Some (it, results) => <[id itm := (it, <[pos := lab]> results)]> m
  | None =>
      <[id itm := (itm, <[pos := lab]> (replicate (length (seqs itm)) None))]> m
  end.

(** One turn of the first demux loop, on the dict read as a map. *)
Definition store_entry (m : gmap string (_Item * list pyval))
    (e : _Item * nat * pyval) : gmap string (_Item * list pyval) :=
  store_label_map e.1.1 e.1.2 e.2 m.

(** A buffer whose cells from [p] on have been overwritten with [ls]. *)
Definition fill (p : nat) (ls buf : list pyval) : list pyval :=
  take p buf ++ ls ++ drop (p + length ls) buf.

(** The dict keeps one entry per item id, under the id of its item. *)
Definition results_wf (rr : Results) : Prop :=
  NoDup (fst <$> rr) ∧ Forall (λ e, id e.2.1 = e.1) rr.

(** What the second demux loop does to the future stored under [k]. *)
Definition resolved (entry : option (_Item * list pyval)) (f : option Future)
    : option Future :=
  match entry, f with
  | Some (_, results), Some f' =>
      if forallb is_not_None results && negb (done_ f')
      then Some (FutResult results) else Some f'
  | _, _ => f
  end.

(* ------------------------------------------------------------------ *)
(** ** Concrete work items and states *)

Definition item1 : _Item := mk_Item "id-1" "A" ["a"; "b"; "c"] 1.
Definition item2 : _Item := mk_Item "id-2" "A" ["dd"; "e"; "f"] 2.
Definition item3 : _Item := mk_Item "id-3" "A" ["ggg"; "h"] 3.
Definition item4 : _Item := mk_Item "id-4" "B" ["x"] 1.

(** SJF with three queued items of 3, 3 and 2 sequences. *)
Definition sjf_state : State :=
  mk_State sjf [item1; item2; item3] [] [] "B" ∅.

(** FCFS is active, but an item is still in the class-A queue. *)
Definition stranded_state : State :=
  mk_State fcfs [] [item1] [] "B" (<["id-1" := Pending]> ∅).

(** FAIR with both class queues holding an item. *)
Definition fair_state : State :=
  mk_State fair [] [item3; item1] [item4] "B" ∅.

(** FCFS with two queued items; the client of the second has gone. *)
Definition fcfs_state : State :=
  mk_State fcfs [item3; item4] [] [] "B"
    (<["id-3" := Pending]> (<["id-4" := Cancelled]> ∅)).

(** A run that serves one request under SJF, then switches to FAIR and
    takes a class-B and a class-A request. *)
Definition first_fair_steps : list Step :=
  [SHandler (EvClassify (Some "b") ["x"; "y"] "id-1");
   SCycle (mk_Cycle [] [] (Labels [Some "code"; Some "not code"]));
   SHandler (EvChange fair);
   SHandler (EvClassify (Some "b") ["z"] "id-2");
   SHandler (EvClassify (Some "a") ["u"; "vv"] "id-3")].

(** A cycle whose downstream call fails. *)
Definition failing_cycle : Cycle :=
  mk_Cycle [] [] (Raised "Server error '500 Internal Server Error'").

(** The futures of [item3] and [item4], both pending. *)
Definition pending_futs : gmap string Future :=
  <["id-3" := Pending]> (<["id-4" := Pending]> ∅).

(** Closes the side conditions of the lemmas on what handlers append. *)
Ltac solve_appends :=
  rewrite ?app_nil_r; repeat split; simpl;
  rewrite ?Forall_singleton; auto using Forall_nil_2.

(* ------------------------------------------------------------------ *)
(** ** The downstream: classification_server.py *)

Module classification_server.

(** [tok in text] on strings: [tok] occurs at some position of [text]. *)
Fixpoint contains (tok text : string) : bool :=
  String.prefix tok text
  || match text with
     | EmptyString => false
     | String _ text' => contains tok text'
     end.

(** [_is_code] *)
Definition _is_code (text : string) : bool :=
  existsb (λ tok, contains tok text) [";"; "{"; "}"; "def "; "class "].

(** The enum [Labels], and the strings it serializes to. *)
Inductive Labels := code | not_code.

Definition Labels_value (l : Labels) : string :=
  match l with code => "code" | not_code => "not code" end.

(** What [classify] ends with: an [HTTPException], or its response after
    [asyncio.sleep((longest ** 2) / 1_000_000)], a sleep of [longest ** 2]
    microseconds. *)
Inductive Outcome :=
  | ClassifyException (status : nat) (detail : string)
  | ClassifyResponse (sleep_us : nat) (results : list string).

(** [classify].  [max] cannot raise after the bounds check; an exception
    that escapes a handler is answered with 500. *)
Definition classify (sequences : list string) : Outcome :=
  if negb ((1 <=? length sequences)%nat && (length sequences <=? 5)%nat) then
    ClassifyException 400 "Need 1 - 5 sequences per request"
  else
    match max_len sequences with
    | None => ClassifyException 500 "Internal Server Error"
    | Some longest =>
        ClassifyResponse (longest ^ 2)
          ((λ x, Labels_value (if _is_code x then code else not_code))
             <$> sequences)
    end.

End classification_server.


(** The label that the server gives a sequence. *)
Definition label_of (x : string) : string :=
  classification_server.Labels_value
    (if classification_server._is_code x
     then classification_server.code else classification_server.not_code).

(* ------------------------------------------------------------------ *)
(** ** The load generator: simulate_clients.py *)

Module simulate_clients.

(** [_random_code], given whether [random.random() < 0.5]. *)
Definition _random_code (below_half : bool) : string :=
  if below_half then "def foo(): pass" else "hello world".

(** The [snippets] of one burst of [customer_a], given the five draws:
    [[_random_code()[:5] for _ in range(5)]]. *)
Definition customer_a_snippets (draw : nat → bool) : list string :=
  (λ i, String.substring 0 5 (_random_code (draw i))) <$> seq 0 5.

End simulate_clients.

(* ------------------------------------------------------------------ *)
(** ** Predicates on items and runs *)

(** [maxlen] is what [__init__] computed from [seqs]. *)
Definition item_wf (itm : _Item) : Prop :=
  max_len (seqs itm) = Some (maxlen itm).

(** The largest [maxlen] of a batch. *)
Definition batch_maxlen (b : list _Item) : nat :=
  foldr Nat.max 0 (maxlen <$> b).

(** The ids of the queued items. *)
Definition queued_ids (st : State) : list string :=
  id <$> (fifo_q st ++ q_a st ++ q_b st).

(** The uuids that the handler activations of a run draw. *)
Definition event_uuids (e : Event) : list string :=
  match e with
  | EvClassify _ _ uuid => [uuid]
  | EvChange _ => []
  end.

Definition step_uuids (s : Step) : list string :=
  match s with
  | SHandler e => event_uuids e
  | SCycle c =>
      (during_wait c ≫= event_uuids) ++ (during_call c ≫= event_uuids)
  end.

(** What every reachable state satisfies: queued items are within the
    bounds and carry the [maxlen] of their sequences, and each class queue
    holds its class only. *)
Definition queue_invariant (st : State) : Prop :=
  Forall (λ itm, admissible itm ∧ item_wf itm)
    (fifo_q st ++ q_a st ++ q_b st)
  ∧ Forall (λ itm, cid itm = "A") (q_a st)
  ∧ Forall (λ itm, cid itm ≠ "A") (q_b st).

(** The number of downstream calls in a trace. *)
Definition is_post (e : Effect) : bool :=
  match e with Post _ => true | Sleep _ => false end.

Definition posts (tr : list Effect) : nat :=
  length (filter (λ e, is_post e) tr).

(** [st'] holds, queue by queue and in order, some of the items of [st],
    and the same futures. *)
Definition shrinks (st st' : State) : Prop :=
  fifo_q st' `sublist_of` fifo_q st
  ∧ q_a st' `sublist_of` q_a st
  ∧ q_b st' `sublist_of` q_b st
  ∧ futs st' = futs st.

(** All queued items. *)
Definition queued (st : State) : list _Item :=
  fifo_q st ++ q_a st ++ q_b st.







(** [str.isascii]: on such strings [upper] is [str.upper] exactly. *)
Fixpoint isascii (s : string) : bool :=
  match s with
  | EmptyString => true
  | String c s' => (nat_of_ascii c <? 128)%nat && isascii s'
  end.

(* ------------------------------------------------------------------ *)
(** ** The packing loops *)

Section Packing.

Implicit Types (q b : list _Item) (t : nat).

Lemma batch_size_app b1 b2 :
  batch_size (b1 ++ b2) = batch_size b1 + batch_size b2.
Proof. apply sum_list_with_app. Qed.

Lemma batch_size_cons x b :
  batch_size (x :: b) = length (seqs x) + batch_size b.
Proof. reflexivity. Qed.

Lemma fits_true t x : fits t x = true ↔ t + length (seqs x) ≤ MAX_BATCH.
Proof. unfold fits. apply Nat.leb_le. Qed.

Lemma fits_false t x : fits t x = false ↔ MAX_BATCH < t + length (seqs x).
Proof. unfold fits. apply Nat.leb_gt. Qed.

(** What the head-popping loop computes: it moves the longest prefix of the
    deque that fits to the end of the batch. *)
Lemma pop_while_fits_spec q b t :
  ∃ taken rest,
    q = taken ++ rest
    ∧ pop_while_fits q b t = (rest, b ++ taken, t + batch_size taken)
    ∧ (t ≤ MAX_BATCH → t + batch_size taken ≤ MAX_BATCH)
    ∧ (∀ x rest', rest = x :: rest' → fits (t + batch_size taken) x = false).
Proof.
  revert b t. induction q as [|x q IH]; intros b t.
  - exists [], []. simpl. rewrite app_nil_r, Nat.add_0_r.
    repeat split; [done | intros ?? [=]].
  - simpl. destruct (fits t x) eqn:Hfit.
    + destruct (IH (b ++ [x]) (t + length (seqs x)))
        as (taken & rest & -> & Heq & Hle & Hstop).
      exists (x :: taken), rest. rewrite Heq, batch_size_cons.
      rewrite <- app_assoc, Nat.add_assoc. simpl.
      apply fits_true in Hfit.
      repeat split; [ intros _; apply Hle; lia | done ].
    + exists [], (x :: q). simpl. rewrite app_nil_r, Nat.add_0_r.
      repeat split; [done |]. intros ?? [= <- <-]. done.
Qed.

(** The SJF loop admits a prefix of the sorted view and stops at the first
    item that does not fit. *)
Lemma sjf_loop_spec (s : list _Item) q b t :
  ∃ taken rest,
    s = taken ++ rest
    ∧ sjf_loop s q b t
      = (foldl (λ q x, deque_remove x q) q taken, b ++ taken,
         t + batch_size taken)
    ∧ (t ≤ MAX_BATCH → t + batch_size taken ≤ MAX_BATCH)
    ∧ (∀ x rest', rest = x :: rest' → fits (t + batch_size taken) x = false).
Proof.
  revert q b t. induction s as [|x s IH]; intros q b t.
  - exists [], []. simpl. rewrite app_nil_r, Nat.add_0_r.
    repeat split; [done | intros ?? [=]].
  - simpl. destruct (fits t x) eqn:Hfit.
    + destruct (IH (deque_remove x q) (b ++ [x]) (t + length (seqs x)))
        as (taken & rest & -> & Heq & Hle & Hstop).
      exists (x :: taken), rest. rewrite Heq, batch_size_cons.
      rewrite <- app_assoc, Nat.add_assoc. simpl.
      apply fits_true in Hfit.
      repeat split; [ intros _; apply Hle; lia | done ].
    + exists [], (x :: s). simpl. rewrite app_nil_r, Nat.add_0_r.
      repeat split; [done |]. intros ?? [= <- <-]. done.
Qed.

Lemma two_items_le_batch_size b i j x y :
  i ≠ j → b !! i = Some x → b !! j = Some y →
  length (seqs x) + length (seqs y) ≤ batch_size b.
Proof.
  revert i j. induction b as [|z b IH]; intros i j Hne Hi Hj; [done|].
  rewrite batch_size_cons.
  destruct i as [|i], j as [|j]; simpl in *; simplify_eq.
  - apply list_elem_of_lookup_2 in Hj.
    pose proof (sum_list_with_in _ (λ itm, length (seqs itm)) _ Hj) as H.
    unfold batch_size. simpl in H. lia.
  - apply list_elem_of_lookup_2 in Hi.
    pose proof (sum_list_with_in _ (λ itm, length (seqs itm)) _ Hi) as H.
    unfold batch_size. simpl in H. lia.
  - assert (i ≠ j) as Hne' by congruence.
    pose proof (IH i j Hne' Hi Hj). lia.
Qed.

Lemma length_flatten b : length (flatten b) = batch_size b.
Proof.
  unfold flatten. induction b as [|x b IH]; [done|].
  rewrite bind_cons, length_app, IH. reflexivity.
Qed.

End Packing.


(* ------------------------------------------------------------------ *)
(** ** What each branch of the selection computes *)

Lemma fair_open_spec (primary : list _Item) (turn lt : string) :
  ∃ taken rest,
    primary = taken ++ rest
    ∧ (∀ p1 b1 t1 lt1, fair_open primary turn lt = (p1, b1, t1, lt1) →
         pop_while_fits p1 b1 t1 = (rest, taken, batch_size taken)
         ∧ lt1 = match taken with [] => lt | _ => turn end)
    ∧ batch_size taken ≤ MAX_BATCH
    ∧ (∀ x r, rest = x :: r → fits (batch_size taken) x = false).
Proof.
  destruct primary as [|x p].
  - exists [], []. split; [done|]. split; [|split].
    + by intros ???? [= <- <- <- <-].
    + unfold MAX_BATCH; simpl; lia.
    + intros ?? [=].
  - unfold fair_open. destruct (fits 0 x) eqn:Hfit.
    + destruct (pop_while_fits_spec p [x] (length (seqs x)))
        as (taken & rest & -> & Heq & Hle & Hstop).
      apply fits_true in Hfit. simpl in Hfit.
      exists (x :: taken), rest. rewrite batch_size_cons.
      split; [done|]. split; [|split].
      * intros ???? [= <- <- <- <-]. simpl. by rewrite Heq.
      * by apply Hle.
      * done.
    + exists [], (x :: p). split; [done|]. split; [|split].
      * intros ???? [= <- <- <- <-]. simpl. by rewrite Hfit.
      * unfold MAX_BATCH; simpl; lia.
      * by intros ?? [= <- <-].
Qed.

(** The FAIR branch: the longest fitting prefix of the primary queue,
    followed by the longest prefix of the secondary queue that fits in what
    is left; [last_turn] moves only if the primary queue gave an item. *)
Lemma select_fair_spec (st : State) :
  let turn := next_turn (last_turn st) in
  let primary := if String.eqb turn "A" then q_a st else q_b st in
  let secondary := if String.eqb turn "A" then q_b st else q_a st in
  ∃ ptaken prest staken srest,
    primary = ptaken ++ prest
    ∧ secondary = staken ++ srest
    ∧ select_fair st
      = mk_Selection (ptaken ++ staken) (batch_size (ptaken ++ staken))
          (set_last_turn (match ptaken with [] => last_turn st | _ => turn end)
             (if String.eqb turn "A"
              then set_q_b srest (set_q_a prest st)
              else set_q_a srest (set_q_b prest st)))
          []
    ∧ batch_size (ptaken ++ staken) ≤ MAX_BATCH
    ∧ (∀ x r, prest = x :: r →
         MAX_BATCH < batch_size ptaken + length (seqs x))
    ∧ (∀ x r, srest = x :: r →
         MAX_BATCH < batch_size (ptaken ++ staken) + length (seqs x)).
Proof.
  intros turn primary secondary.
  destruct (decide (q_a st = [] ∧ q_b st = [])) as [[Ha Hb]|Hne].
  { exists [], [], [], []. unfold primary, secondary, select_fair.
    rewrite Ha, Hb. split; [by destruct (String.eqb _ _)|].
    split; [by destruct (String.eqb _ _)|]. split.
    - f_equal. destruct st; simpl in *; subst.
      by destruct (String.eqb _ _).
    - unfold MAX_BATCH; simpl. split; [lia|]. by split; intros ?? [=]. }
  assert (select_fair st =
    let '(primary1, b1, t1, lt1) := fair_open primary turn (last_turn st) in
    let '(primary2, b2, t2) := pop_while_fits primary1 b1 t1 in
    let '(secondary2, b3, t3) := pop_while_fits secondary b2 t2 in
    mk_Selection b3 t3
      (set_last_turn lt1
         (if String.eqb turn "A"
          then set_q_b secondary2 (set_q_a primary2 st)
          else set_q_a secondary2 (set_q_b primary2 st))) []) as ->.
  { unfold select_fair, primary, secondary. fold turn.
    destruct (q_a st), (q_b st); [by destruct Hne | ..];
      by destruct (String.eqb turn "A"). }
  destruct (fair_open_spec primary turn (last_turn st))
    as (ptaken & prest & Hp & Hopen & Hple & Hpstop).
  destruct (fair_open primary turn (last_turn st)) as [[[p1 b1] t1] lt1].
  destruct (Hopen _ _ _ _ eq_refl) as [-> ->].
  destruct (pop_while_fits_spec secondary ptaken (batch_size ptaken))
    as (staken & srest & Hs & -> & Hsle & Hsstop).
  exists ptaken, prest, staken, srest.
  rewrite batch_size_app.
  split; [done|]. split; [done|]. split; [done|]. split; [by apply Hsle|].
  split.
  - intros x r ->. by apply fits_false, (Hpstop x r).
  - intros x r ->. by apply fits_false, (Hsstop x r).
Qed.

(** [max] raises on the empty list only, which the bounds check of the
    handler excludes. *)
Lemma item_init_after_bounds_check (uuid cid : string) (body : list string) :
  1 ≤ length body → is_Some (_Item__init__ uuid cid body).
Proof. destruct body; simpl; [lia | by eexists]. Qed.

(** Handlers only append to the queues, and what they append has passed
    the bounds check; they never touch [last_turn]. *)
Lemma handle_appends (e : Event) (st : State) :
  ∃ f a b,
    fifo_q (handle e st) = fifo_q st ++ f
    ∧ q_a (handle e st) = q_a st ++ a
    ∧ q_b (handle e st) = q_b st ++ b
    ∧ last_turn (handle e st) = last_turn st
    ∧ Forall admissible (f ++ a ++ b)
    ∧ Forall (λ itm, cid itm = "A") a
    ∧ Forall (λ itm, cid itm ≠ "A") b.
Proof.
  destruct e as [h body uuid | s]; simpl.
  2: { exists [], [], []. solve_appends. }
  unfold proxy_classify.
  destruct (1 <=? length body)%nat eqn:H1;
    [destruct (length body <=? MAX_BATCH)%nat eqn:H2|]; simpl.
  2,3: exists [], [], []; solve_appends.
  apply Nat.leb_le in H1, H2.
  unfold _Item__init__. destruct (max_len body) as [m|] eqn:Hm; simpl.
  2: { exists [], [], []. solve_appends. }
  set (itm := mk_Item _ _ _ _).
  assert (admissible itm) by (by split).
  case_decide as Hs.
  2: { exists [itm], [], []. solve_appends. }
  destruct (String.eqb (upper (default "A" h)) "A") eqn:Hc.
  - apply String.eqb_eq in Hc. exists [], [itm], []. solve_appends.
  - apply String.eqb_neq in Hc. exists [], [], [itm]. solve_appends.
Qed.

Lemma handle_all_appends (evs : list Event) (st : State) :
  ∃ f a b,
    fifo_q (handle_all evs st) = fifo_q st ++ f
    ∧ q_a (handle_all evs st) = q_a st ++ a
    ∧ q_b (handle_all evs st) = q_b st ++ b
    ∧ last_turn (handle_all evs st) = last_turn st
    ∧ Forall admissible (f ++ a ++ b)
    ∧ Forall (λ itm, cid itm = "A") a
    ∧ Forall (λ itm, cid itm ≠ "A") b.
Proof.
  revert st. induction evs as [|e evs IH]; intros st; simpl.
  { exists [], [], []. solve_appends. }
  destruct (handle_appends e st)
    as (f1 & a1 & b1 & Hf1 & Ha1 & Hb1 & Hl1 & Hadm1 & HA1 & HB1).
  destruct (IH (handle e st))
    as (f2 & a2 & b2 & Hf2 & Ha2 & Hb2 & Hl2 & Hadm2 & HA2 & HB2).
  exists (f1 ++ f2), (a1 ++ a2), (b1 ++ b2).
  unfold handle_all in *.
  rewrite Hf2, Ha2, Hb2, Hl2, Hf1, Ha1, Hb1, Hl1, <- !app_assoc.
  rewrite !Forall_app in *. destruct_and!. repeat split; auto.
Qed.

(** What a handler does to the queue set does not depend on what the
    FIFO holds: it appends the same item to a FIFO that the dispatcher has
    popped in the meantime. *)
Lemma handle_set_fifo_q (e : Event) (st : State) :
  ∃ f,
    fifo_q (handle e st) = fifo_q st ++ f
    ∧ ∀ q, handle e (set_fifo_q q st) = set_fifo_q (q ++ f) (handle e st).
Proof.
  destruct e as [h body uuid | s]; simpl.
  2: { exists []. split; [by rewrite app_nil_r|].
       intros q. by rewrite app_nil_r. }
  unfold proxy_classify.
  destruct (negb _).
  { exists []. split; [by rewrite app_nil_r|].
    intros q. by rewrite app_nil_r. }
  destruct (_Item__init__ _ _ _) as [itm|].
  2: { exists []. split; [by rewrite app_nil_r|].
       intros q. by rewrite app_nil_r. }
  cbn [snd]. destruct st as [s0 fq qa qb lt fs].
  destruct s0; simpl.
  - exists [itm]. by split.
  - exists []. destruct (String.eqb (cid itm) "A"); simpl;
      (split; [by rewrite app_nil_r|]); intros q; by rewrite app_nil_r.
  - exists [itm]. by split.
Qed.

Lemma handle_all_set_fifo_q (evs : list Event) (st : State) :
  ∃ f,
    fifo_q (handle_all evs st) = fifo_q st ++ f
    ∧ ∀ q, handle_all evs (set_fifo_q q st)
           = set_fifo_q (q ++ f) (handle_all evs st).
Proof.
  revert st. induction evs as [|e evs IH]; intros st.
  { exists []. split; [by rewrite app_nil_r|].
    intros q. by rewrite app_nil_r. }
  destruct (handle_set_fifo_q e st) as (f1 & Hf1 & He).
  destruct (IH (handle e st)) as (f2 & Hf2 & Hall).
  exists (f1 ++ f2). unfold handle_all in *. cbn [foldl].
  split; [by rewrite Hf2, Hf1, <- app_assoc|].
  intros q. rewrite He, Hall. by rewrite <- app_assoc.
Qed.

Lemma set_fifo_q_twice (q q' : list _Item) (st : State) :
  set_fifo_q q (set_fifo_q q' st) = set_fifo_q q st.
Proof. done. Qed.

(** The FCFS branch: a first pass takes the longest fitting prefix of the
    FIFO; only a non-empty batch below capacity is followed by one
    [BATCH_TIMEOUT_MS] wait and a second pass over what the FIFO then
    holds. *)
Lemma select_fcfs_spec (evs : list Event) (st : State) :
  ∃ b1 rest1,
    fifo_q st = b1 ++ rest1
    ∧ batch_size b1 ≤ MAX_BATCH
    ∧ (∀ x r, rest1 = x :: r → MAX_BATCH < batch_size b1 + length (seqs x))
    ∧ ((b1 ≠ [] ∧ batch_size b1 < MAX_BATCH
        ∧ let st2 := handle_all evs (set_fifo_q rest1 st) in
          ∃ b2 rest2,
            fifo_q st2 = b2 ++ rest2
            ∧ batch_size (b1 ++ b2) ≤ MAX_BATCH
            ∧ (∀ x r, rest2 = x :: r →
                 MAX_BATCH < batch_size (b1 ++ b2) + length (seqs x))
            ∧ select_fcfs evs st
              = mk_Selection (b1 ++ b2) (batch_size (b1 ++ b2))
                  (set_fifo_q rest2 st2) [Sleep BATCH_TIMEOUT_MS])
       ∨ ((b1 = [] ∨ batch_size b1 = MAX_BATCH)
          ∧ select_fcfs evs st
            = mk_Selection b1 (batch_size b1) (set_fifo_q rest1 st) [])).
Proof.
  unfold select_fcfs.
  destruct (pop_while_fits_spec (fifo_q st) [] 0)
    as (b1 & rest1 & Hq & -> & Hle & Hstop).
  simpl in *. assert (batch_size b1 ≤ MAX_BATCH) as Hle1
    by (apply Hle; unfold MAX_BATCH; lia).
  exists b1, rest1. split; [done|]. split; [done|]. split.
  { intros x r ->. by apply fits_false, (Hstop x r). }
  destruct b1 as [|x b1]; [right; by split; [left|] |].
  destruct (batch_size (x :: b1) <? MAX_BATCH)%nat eqn:Hlt.
  - apply Nat.ltb_lt in Hlt. left. split; [done|]. split; [done|].
    cbv zeta. set (st2 := handle_all evs (set_fifo_q rest1 st)).
    destruct (pop_while_fits_spec (fifo_q st2) (x :: b1) (batch_size (x :: b1)))
      as (b2 & rest2 & Hq2 & Heq2 & Hle2 & Hstop2).
    exists b2, rest2. rewrite Heq2, batch_size_app.
    split; [done|]. split; [by apply Hle2|]. split; [|done].
    intros y r ->. by apply fits_false, (Hstop2 y r).
  - apply Nat.ltb_ge in Hlt. right. split; [right; lia | done].
Qed.

(* ------------------------------------------------------------------ *)
(** ** The sorted view of SJF *)

Lemma sorted_insert_perm (x : _Item) (l : list _Item) :
  sorted_insert x l ≡ₚ x :: l.
Proof.
  induction l as [|y l IH]; simpl; [done|].
  destruct (_Item__lt__ y x); [|done].
  rewrite IH. apply Permutation_swap.
Qed.

Lemma sorted_perm (q : list _Item) : sorted q ≡ₚ q.
Proof.
  induction q as [|x q IH]; simpl; [done|].
  by rewrite sorted_insert_perm, IH.
Qed.

Lemma sorted_insert_HdRel (x z : _Item) (l : list _Item) :
  maxlen_le z x → HdRel maxlen_le z l → HdRel maxlen_le z (sorted_insert x l).
Proof.
  intros Hzx Hhd. destruct l as [|y l]; simpl; [by constructor|].
  destruct (_Item__lt__ y x); constructor; [by inversion Hhd | done].
Qed.

Lemma sorted_insert_Sorted (x : _Item) (l : list _Item) :
  Sorted maxlen_le l → Sorted maxlen_le (sorted_insert x l).
Proof.
  induction 1 as [|y l Hs IH Hhd]; simpl.
  { repeat constructor. }
  destruct (_Item__lt__ y x) eqn:Hlt; unfold _Item__lt__ in Hlt.
  - apply Nat.ltb_lt in Hlt. constructor; [done|].
    apply sorted_insert_HdRel; [unfold maxlen_le; lia | done].
  - apply Nat.ltb_ge in Hlt. constructor; [by constructor|].
    by constructor.
Qed.

Lemma sorted_Sorted (q : list _Item) : Sorted maxlen_le (sorted q).
Proof.
  induction q as [|x q IH]; simpl; [constructor|].
  by apply sorted_insert_Sorted.
Qed.

(** Stability: an item jumps only over items of a strictly larger key. *)
Lemma sorted_insert_stable (k : nat) (x : _Item) (l : list _Item) :
  filter (λ y, maxlen y = k) (sorted_insert x l)
  = filter (λ y, maxlen y = k) (x :: l).
Proof.
  induction l as [|y l IH]; simpl; [done|].
  destruct (_Item__lt__ y x) eqn:Hlt; [|done].
  unfold _Item__lt__ in Hlt. apply Nat.ltb_lt in Hlt.
  rewrite (filter_cons _ y), IH, !(filter_cons _ x), (filter_cons _ y).
  repeat case_decide; try done. lia.
Qed.

Lemma sorted_stable (k : nat) (q : list _Item) :
  filter (λ y, maxlen y = k) (sorted q) = filter (λ y, maxlen y = k) q.
Proof.
  induction q as [|x q IH]; simpl; [done|].
  by rewrite sorted_insert_stable, !filter_cons, IH.
Qed.

(** ** Removal from the FIFO *)

Lemma NoDup_ids_sublist (l1 l2 : list _Item) :
  l1 `sublist_of` l2 → NoDup (id <$> l2) → NoDup (id <$> l1).
Proof.
  intros Hsub Hnd. eapply sublist_NoDup; [done|]. by apply fmap_sublist.
Qed.

Lemma filter_all {A} (P : A → Prop) `{!∀ x, Decision (P x)} (l : list A) :
  Forall P l → filter P l = l.
Proof.
  induction 1 as [|x l HP _ IH]; [done|].
  by rewrite filter_cons_True, IH.
Qed.

Lemma deque_remove_filter (x : _Item) (q : list _Item) :
  NoDup (id <$> q) →
  deque_remove x q = filter (λ y, id y ≠ id x) q.
Proof.
  induction q as [|y q IH]; [done|]. rewrite fmap_cons, NoDup_cons.
  intros [Hy Hnd]. simpl. unfold same_item.
  destruct (String.eqb (id y) (id x)) eqn:Heq.
  - apply String.eqb_eq in Heq. rewrite filter_cons_False by (by intros []).
    symmetry. apply filter_all, Forall_forall. intros z Hz Hzx.
    apply Hy, list_elem_of_fmap. exists z. split; [congruence | done].
  - apply String.eqb_neq in Heq. by rewrite filter_cons_True, IH.
Qed.

Lemma deque_remove_all_filter (taken q : list _Item) :
  NoDup (id <$> q) →
  foldl (λ q x, deque_remove x q) q taken
  = filter (λ y, id y ∉ id <$> taken) q.
Proof.
  revert q. induction taken as [|x taken IH]; intros q Hnd; simpl.
  { symmetry. apply filter_all, Forall_forall. intros ??. apply not_elem_of_nil. }
  rewrite deque_remove_filter by done.
  rewrite IH by (eapply NoDup_ids_sublist; [apply sublist_filter | done]).
  rewrite list_filter_filter. apply list_filter_iff.
  intros y. rewrite not_elem_of_cons. tauto.
Qed.

(** The SJF branch: the batch is the longest fitting prefix of the sorted
    snapshot, and exactly its items are removed from the FIFO. *)
Lemma select_sjf_spec (st : State) :
  ∃ rest,
    sorted (fifo_q st) = batch (select_sjf st) ++ rest
    ∧ total_sequences (select_sjf st) = batch_size (batch (select_sjf st))
    ∧ batch_size (batch (select_sjf st)) ≤ MAX_BATCH
    ∧ (∀ x r, rest = x :: r →
         MAX_BATCH < batch_size (batch (select_sjf st)) + length (seqs x))
    ∧ after (select_sjf st)
      = set_fifo_q
          (foldl (λ q x, deque_remove x q) (fifo_q st) (batch (select_sjf st)))
          st
    ∧ trace (select_sjf st) = [].
Proof.
  unfold select_sjf.
  destruct (fifo_q st) as [|x q] eqn:Hq.
  { exists []. simpl. repeat split; try done; [unfold MAX_BATCH; lia|].
    destruct st; simpl in *; by subst. }
  destruct (sjf_loop_spec (sorted (x :: q)) (x :: q) [] 0)
    as (taken & rest & Hs & -> & Hle & Hstop).
  exists rest. cbn [batch total_sequences after trace app].
  split; [done|]. split; [done|].
  split; [apply Hle; unfold MAX_BATCH; lia|].
  split; [intros y r ->; by apply fits_false, (Hstop y r)|].
  done.
Qed.

(** The counter [total_sequences] is the size of the batch, and it never
    exceeds [MAX_BATCH], whatever the strategy. *)
Lemma select_total (evs : list Event) (st : State) :
  total_sequences (select evs st) = batch_size (batch (select evs st))
  ∧ batch_size (batch (select evs st)) ≤ MAX_BATCH.
Proof.
  unfold select. destruct (strategy st).
  - destruct (select_sjf_spec st) as (rest & _ & Ht & Hle & _). done.
  - destruct (select_fair_spec st)
      as (pt & pr & stk & sr & _ & _ & -> & Hle & _). done.
  - destruct (select_fcfs_spec evs st)
      as (b1 & r1 & _ & Hle1 & _ & [(_ & _ & H2) | [_ ->]]); [|done].
    destruct H2 as (b2 & r2 & _ & Hle2 & _ & ->). done.
Qed.

(** The selection goes through no suspension point but the FCFS wait. *)
Lemma select_trace (evs : list Event) (st : State) :
  Forall (λ e, e = Sleep BATCH_TIMEOUT_MS) (trace (select evs st)).
Proof.
  unfold select. destruct (strategy st).
  - destruct (select_sjf_spec st) as (rest & _ & _ & _ & _ & _ & ->).
    constructor.
  - destruct (select_fair_spec st)
      as (pt & pr & stk & sr & _ & _ & -> & _). constructor.
  - destruct (select_fcfs_spec evs st)
      as (b1 & r1 & _ & _ & _ & [(_ & _ & H2) | [_ ->]]); [|constructor].
    destruct H2 as (b2 & r2 & _ & _ & _ & ->). by repeat constructor.
Qed.

(** C1.  Every batch that a selection cycle builds, under SJF, FAIR and
    FCFS alike, has at most [MAX_BATCH = 5] sequences in total; so has
    every list that a cycle of the dispatcher posts downstream; hence no
    batch holds two items of three sequences each. *)
Theorem batch_within_MAX_BATCH (evs : list Event) (st : State) :
  let b := batch (select evs st) in
  batch_size b ≤ MAX_BATCH
  ∧ (∀ c flat, during_wait c = evs →
       Post flat ∈ (dispatcher_cycle c st).2 →
       flat = flatten b ∧ length flat ≤ 5)
  ∧ ∀ i j x y, i ≠ j → b !! i = Some x → b !! j = Some y →
      ¬ (length (seqs x) = 3 ∧ length (seqs y) = 3).
Proof.
  intros b. destruct (select_total evs st) as [_ Hle]. fold b in Hle.
  split; [done|]. split.
  - intros c flat <- Hin. unfold dispatcher_cycle in Hin. fold b in Hin.
    pose proof (select_trace (during_wait c) st) as Htr.
    rewrite Forall_forall in Htr.
    destruct b as [|x b'] eqn:Hb; cbn [snd] in Hin;
      rewrite elem_of_cons, elem_of_app, list_elem_of_singleton in Hin;
      destruct Hin as [Hin | [Hin | Hin]]; try discriminate;
      try (by apply Htr in Hin).
    injection Hin as ->. split; [done|].
    change (length (flatten (x :: b')) ≤ 5).
    rewrite length_flatten. exact Hle.
  - intros i j x y Hne Hi Hj [Hx Hy].
    pose proof (two_items_le_batch_size b i j x y Hne Hi Hj) as H.
    unfold MAX_BATCH in Hle. lia.
Qed.

Lemma batch_within_MAX_BATCH_witness :
  batch_size (batch (select [] sjf_state)) ≤ MAX_BATCH.
Proof. exact (proj1 (batch_within_MAX_BATCH [] sjf_state)). Defined.

(* ------------------------------------------------------------------ *)
(** ** SJF *)

(** C2, as stated, fails: with items of 3, 3 and 2 sequences queued in
    increasing [maxlen], the code admits the first item only, whereas a
    walk that skipped the second item and went on would also admit the
    third. *)
Lemma sjf_stops_at_first_misfit :
  batch (select [] sjf_state) = [item1]
  ∧ batch (select_sjf_best_fit sjf_state) = [item1; item3]
  ∧ fifo_q (after (select [] sjf_state)) = [item2; item3].
Proof. by vm_compute. Qed.

(** C2, amended.  Under SJF a cycle sorts a snapshot of the FIFO stably by
    [maxlen] ascending (equal keys keep their FIFO order), admits the
    longest prefix of the sorted view whose sequences fit in [MAX_BATCH],
    stops at the first item that does not fit, and removes the admitted
    items from the FIFO, which keeps the others in order. *)
Theorem sjf_admits_sorted_prefix (evs : list Event) (st : State) :
  strategy st = sjf →
  NoDup (id <$> fifo_q st) →
  let view := sorted (fifo_q st) in
  let b := batch (select evs st) in
  (view ≡ₚ fifo_q st
   ∧ Sorted maxlen_le view
   ∧ ∀ k, filter (λ y, maxlen y = k) view
          = filter (λ y, maxlen y = k) (fifo_q st))
  ∧ ∃ rest,
      view = b ++ rest
      ∧ batch_size b ≤ MAX_BATCH
      ∧ (∀ x r, rest = x :: r → MAX_BATCH < batch_size b + length (seqs x))
      ∧ fifo_q (after (select evs st))
        = filter (λ y, id y ∉ id <$> b) (fifo_q st).
Proof.
  intros Hs Hnd view b. split.
  { split; [apply sorted_perm|]. split; [apply sorted_Sorted|].
    intros k. apply sorted_stable. }
  subst b. unfold select. rewrite Hs.
  destruct (select_sjf_spec st) as (rest & Hv & _ & Hle & Hstop & Haft & _).
  exists rest. split; [done|]. split; [done|]. split; [done|].
  rewrite Haft. simpl. by apply deque_remove_all_filter.
Qed.

Lemma sjf_admits_sorted_prefix_witness :
  ∃ rest, sorted (fifo_q sjf_state) = batch (select [] sjf_state) ++ rest.
Proof.
  assert (NoDup (id <$> fifo_q sjf_state)) as Hnd.
  { apply (bool_decide_unpack _). vm_compute. exact I. }
  destruct (sjf_admits_sorted_prefix [] sjf_state eq_refl Hnd)
    as (_ & rest & Hv & _).
  exists rest. exact Hv.
Defined.

(* ------------------------------------------------------------------ *)
(** ** Which queues a cycle reads *)

Lemma admissible_fits (x : _Item) : admissible x → fits 0 x = true.
Proof. intros [_ H]. by apply fits_true. Qed.

Lemma batch_size_nil_inv (x : _Item) :
  admissible x → ¬ MAX_BATCH < batch_size [] + length (seqs x).
Proof. intros [_ H]. simpl. lia. Qed.

(** A cycle under SJF or FCFS pops nothing from the class queues and
    leaves [last_turn] alone; the class queues can only grow, by what the
    handlers append during the FCFS wait. *)
Lemma select_non_fair (evs : list Event) (st : State) :
  strategy st ≠ fair →
  ∃ a b,
    q_a (after (select evs st)) = q_a st ++ a
    ∧ q_b (after (select evs st)) = q_b st ++ b
    ∧ last_turn (after (select evs st)) = last_turn st
    ∧ Forall (λ itm, cid itm = "A") a
    ∧ Forall (λ itm, cid itm ≠ "A") b.
Proof.
  intros Hs. unfold select. destruct (strategy st); [|done|].
  - destruct (select_sjf_spec st) as (rest & _ & _ & _ & _ & -> & _).
    exists [], []. by rewrite !app_nil_r.
  - destruct (select_fcfs_spec evs st)
      as (b1 & r1 & _ & _ & _ & [(_ & _ & H2) | [_ ->]]).
    + destruct H2 as (b2 & r2 & _ & _ & _ & ->). simpl.
      destruct (handle_all_appends evs (set_fifo_q r1 st))
        as (f & a & b & _ & Ha & Hb & Hl & _ & HA & HB).
      exists a, b. by rewrite Ha, Hb, Hl.
    + exists [], []. by rewrite !app_nil_r.
Qed.

(** C3, as stated, fails: with FCFS active and an item left in [q_a], the
    cycle builds no batch and the item stays where it is. *)
Lemma stranded_item_not_drained :
  any_queue_nonempty stranded_state
  ∧ batch (select [] stranded_state) = []
  ∧ q_a (after (select [] stranded_state)) = [item1]
  ∧ q_a (dispatcher_cycle (mk_Cycle [] [] (Labels [])) stranded_state).1
    = [item1].
Proof.
  split; [right; left; done|]. by vm_compute.
Qed.

(** C3, amended.  A cycle reads only the queues of the active strategy:
    the global FIFO under SJF and FCFS, the two class queues under FAIR.
    With every queued item within the bounds, it builds a non-empty batch
    exactly when those queues hold an item; the queues of the other
    strategies are not popped. *)
Theorem select_reads_active_queues (evs : list Event) (st : State) :
  queues_admissible st →
  (batch (select evs st) ≠ [] ↔ active_queue_nonempty st)
  ∧ (strategy st ≠ fair →
       ∃ a b, q_a (after (select evs st)) = q_a st ++ a
              ∧ q_b (after (select evs st)) = q_b st ++ b)
  ∧ (strategy st = fair →
       fifo_q (after (select evs st)) = fifo_q st).
Proof.
  intros (Hf & Ha & Hb). split; [|split].
  - unfold select, active_queue_nonempty. destruct (strategy st).
    + destruct (select_sjf_spec st) as (rest & Hv & _ & _ & Hstop & _).
      destruct (batch (select_sjf st)) as [|y b].
      * split; [done|]. intros Hne. exfalso.
        destruct rest as [|x r].
        { apply Hne. apply Permutation_nil_r. by rewrite <- sorted_perm, Hv. }
        eapply batch_size_nil_inv; [|by eapply Hstop].
        eapply Forall_forall; [exact Hf|].
        rewrite <- sorted_perm, Hv. by left.
      * split; [|done]. intros _ Hq. rewrite Hq in Hv. done.
    + destruct (select_fair_spec st)
        as (pt & pr & stk & sr & Hp & Hsec & -> & _ & Hps & Hss).
      cbn [batch]. destruct pt as [|y pt]; [destruct stk as [|y stk]|].
      * split; [done|]. intros Hne. exfalso. simpl in Hp, Hsec.
        assert (Forall admissible pr ∧ Forall admissible sr) as [HFp HFs].
        { rewrite <- Hp, <- Hsec. by destruct (String.eqb _ _). }
        destruct pr as [|x r].
        2: { eapply batch_size_nil_inv; [|by eapply Hps].
             by inversion HFp. }
        destruct sr as [|x r].
        2: { eapply batch_size_nil_inv; [|by eapply Hss].
             by inversion HFs. }
        simpl in Hp, Hsec. destruct (String.eqb _ _), Hne; congruence.
      * split; [|done]. intros _. simpl in Hsec.
        destruct (String.eqb _ _); [right | left]; by rewrite Hsec.
      * split; [|done]. intros _.
        destruct (String.eqb _ _); [left | right]; by rewrite Hp.
    + destruct (select_fcfs_spec evs st)
        as (b1 & r1 & Hq & _ & Hstop & [(Hne & _ & H2) | [Hb1 ->]]).
      * destruct H2 as (b2 & r2 & _ & _ & _ & ->). cbn [batch].
        split; intros _; [|by destruct b1].
        rewrite Hq. by destruct b1.
      * cbn [batch]. split; [intros Hne; rewrite Hq; by destruct b1|].
        intros Hne ->. simpl in Hq. destruct r1 as [|x r]; [done|].
        eapply batch_size_nil_inv; [|by eapply Hstop].
        rewrite Hq in Hf. by inversion Hf.
  - intros Hs. destruct (select_non_fair evs st Hs) as (a & b & ? & ? & _).
    by exists a, b.
  - intros Hs. unfold select. rewrite Hs.
    destruct (select_fair_spec st) as (pt & pr & stk & sr & _ & _ & -> & _).
    simpl. by destruct (String.eqb _ _).
Qed.

Lemma select_reads_active_queues_witness :
  batch (select [] fair_state) ≠ [] ↔ active_queue_nonempty fair_state.
Proof.
  assert (queues_admissible fair_state) as H.
  { unfold queues_admissible, fair_state, admissible, MAX_BATCH. simpl.
    repeat split; repeat constructor; simpl; lia. }
  exact (proj1 (select_reads_active_queues [] fair_state H)).
Defined.

(* ------------------------------------------------------------------ *)
(** ** FAIR *)

Lemma next_turn_cases (lt : string) :
  (lt = "B" ∧ next_turn lt = "A") ∨ (lt ≠ "B" ∧ next_turn lt = "B").
Proof.
  unfold next_turn. destruct (String.eqb lt "B") eqn:H.
  - left. by apply String.eqb_eq in H.
  - right. by apply String.eqb_neq in H.
Qed.

Lemma next_turn_flips (lt : string) : next_turn (next_turn lt) ≠ next_turn lt.
Proof. by destruct (next_turn_cases lt) as [[_ ->]|[_ ->]]. Qed.

(** Neither the handlers nor the completion of a batch write [last_turn]. *)
Lemma dispatcher_cycle_last_turn (c : Cycle) (st : State) :
  last_turn (dispatcher_cycle c st).1
  = last_turn (after (select (during_wait c) st)).
Proof.
  unfold dispatcher_cycle. destruct (batch _); [done|]. simpl.
  destruct (handle_all_appends (during_call c)
              (after (select (during_wait c) st)))
    as (_ & _ & _ & _ & _ & _ & Hl & _).
  by destruct (downstream c).
Qed.

(** With a non-empty primary queue whose head is within the bounds, the
    head of the primary queue opens the batch and the turn is recorded. *)
Lemma fair_opens_with_primary (evs : list Event) (st : State) x r :
  strategy st = fair →
  queue_of (next_turn (last_turn st)) st = x :: r →
  length (seqs x) ≤ MAX_BATCH →
  head (batch (select evs st)) = Some x
  ∧ last_turn (after (select evs st)) = next_turn (last_turn st).
Proof.
  intros Hs Hq Hx. unfold select. rewrite Hs.
  destruct (select_fair_spec st)
    as (pt & pr & stk & sr & Hp & _ & -> & _ & Hps & _).
  unfold queue_of in Hq. rewrite Hq in Hp. cbn [batch after].
  destruct pt as [|y pt].
  - simpl in Hp. subst pr. specialize (Hps x r eq_refl). simpl in Hps. lia.
  - injection Hp as <- _. split; [done|]. by destruct (String.eqb _ _).
Qed.

(** C6.  A FAIR cycle computes [turn] from [last_turn]; the batch is the
    longest fitting prefix of the primary queue followed by the longest
    prefix of the secondary queue that fits in the remaining capacity;
    [last_turn] becomes [turn] exactly when the primary queue contributed,
    and stays as it was otherwise.  Hence, when both queues hold an item
    within the bounds at two consecutive cycles, the two batches are opened
    by the heads of different class queues. *)
Theorem fair_selection_alternates (evs : list Event) (st : State) :
  strategy st = fair →
  let turn := next_turn (last_turn st) in
  let primary := queue_of turn st in
  let secondary := queue_of (next_turn turn) st in
  let sel := select evs st in
  (turn = if String.eqb (last_turn st) "B" then "A" else "B")
  ∧ (∃ ptaken prest staken srest,
       primary = ptaken ++ prest
       ∧ secondary = staken ++ srest
       ∧ batch sel = ptaken ++ staken
       ∧ batch_size (batch sel) ≤ MAX_BATCH
       ∧ (∀ x r, prest = x :: r →
            MAX_BATCH < batch_size ptaken + length (seqs x))
       ∧ (∀ x r, srest = x :: r →
            MAX_BATCH < batch_size (batch sel) + length (seqs x))
       ∧ queue_of turn (after sel) = prest
       ∧ queue_of (next_turn turn) (after sel) = srest
       ∧ last_turn (after sel)
         = match ptaken with [] => last_turn st | _ => turn end)
  ∧ (∀ (c : Cycle) (between : list Event),
       during_wait c = evs →
       let st2 := handle_all between (dispatcher_cycle c st).1 in
       let turn2 := next_turn (last_turn st2) in
       strategy st2 = fair →
       Forall admissible (q_a st ++ q_b st ++ q_a st2 ++ q_b st2) →
       q_a st ≠ [] → q_b st ≠ [] → q_a st2 ≠ [] → q_b st2 ≠ [] →
       ∀ evs2,
         turn2 ≠ turn
         ∧ head (batch sel) = head (queue_of turn st)
         ∧ head (batch (select evs2 st2)) = head (queue_of turn2 st2)).
Proof.
  intros Hs turn primary secondary sel. split; [done|]. split.
  - subst sel. unfold select. rewrite Hs.
    pose proof (select_fair_spec st) as HS. cbv zeta in HS. fold turn in HS.
    assert (turn = "A" ∨ turn = "B") as Ht.
    { destruct (next_turn_cases (last_turn st)) as [[_ ?]|[_ ?]]; auto. }
    unfold primary, secondary, queue_of. clearbody turn.
    destruct HS as (pt & pr & stk & sr & Hp & Hsec & -> & Hle & Hps & Hss).
    exists pt, pr, stk, sr. cbn [batch after].
    destruct Ht as [-> | ->]; simpl in *; by repeat split.
  - intros c between Hc st2 turn2 Hs2 Hadm Ha Hb Ha2 Hb2 evs2.
    rewrite !Forall_app in Hadm. destruct Hadm as (HA & HB & HA2 & HB2).
    assert (∀ s : State, Forall admissible (q_a s) → Forall admissible (q_b s) →
              q_a s ≠ [] → q_b s ≠ [] →
              ∃ x r, queue_of (next_turn (last_turn s)) s = x :: r
                     ∧ length (seqs x) ≤ MAX_BATCH) as Hhead.
    { intros s FA FB NA NB. unfold queue_of.
      destruct (String.eqb _ _).
      - destruct (q_a s) as [|x r]; [done|]. exists x, r. split; [done|].
        inversion FA as [|?? [_ ?] _]. done.
      - destruct (q_b s) as [|x r]; [done|]. exists x, r. split; [done|].
        inversion FB as [|?? [_ ?] _]. done. }
    destruct (Hhead st HA HB Ha Hb) as (x & r & Hq & Hx).
    destruct (Hhead st2 HA2 HB2 Ha2 Hb2) as (x2 & r2 & Hq2 & Hx2).
    destruct (fair_opens_with_primary evs st x r Hs Hq Hx) as [Hh Hlt].
    destruct (fair_opens_with_primary evs2 st2 x2 r2 Hs2 Hq2 Hx2) as [Hh2 _].
    assert (last_turn st2 = turn) as Hl2.
    { subst st2.
      destruct (handle_all_appends between (dispatcher_cycle c st).1)
        as (_ & _ & _ & _ & _ & _ & -> & _).
      by rewrite dispatcher_cycle_last_turn, Hc. }
    split; [|split].
    + unfold turn2. rewrite Hl2. apply next_turn_flips.
    + subst sel. fold turn in Hq. by rewrite Hh, Hq.
    + fold turn2 in Hq2. by rewrite Hh2, Hq2.
Qed.

Lemma fair_selection_alternates_witness :
  next_turn (last_turn fair_state) = "A"
  ∧ ∃ ptaken staken, batch (select [] fair_state) = ptaken ++ staken.
Proof.
  destruct (fair_selection_alternates [] fair_state eq_refl)
    as (Ht & (pt & _ & stk & _ & _ & _ & Hb & _) & _).
  split; [exact Ht|]. exists pt, stk. exact Hb.
Defined.

(* ------------------------------------------------------------------ *)
(** ** FCFS *)

(** C7.  An FCFS cycle first takes the longest fitting prefix of the
    FIFO.  It waits [BATCH_TIMEOUT_MS] at most once, and exactly when that
    first pass admitted an item and left the batch below capacity; a second
    head-popping pass then follows, over the FIFO as the handlers that ran
    during the wait left it.  The batch followed by the FIFO that is left
    is the FIFO in arrival order, the items that those handlers appended
    included, in the order they appended them; so items are admitted in
    arrival order.  Without the wait nothing arrives and only the FIFO
    changes. *)
Theorem fcfs_selection (evs : list Event) (st : State) :
  strategy st = fcfs →
  let sel := select evs st in
  ∃ b1 rest1 b2 arrivals,
    fifo_q st = b1 ++ rest1
    ∧ batch_size b1 ≤ MAX_BATCH
    ∧ (∀ x r, rest1 = x :: r → MAX_BATCH < batch_size b1 + length (seqs x))
    ∧ batch sel = b1 ++ b2
    ∧ batch sel ++ fifo_q (after sel) = fifo_q st ++ arrivals
    ∧ batch_size (batch sel) ≤ MAX_BATCH
    ∧ (∀ x r, fifo_q (after sel) = x :: r →
         MAX_BATCH < batch_size (batch sel) + length (seqs x))
    ∧ timeout_waits (trace sel) ≤ 1
    ∧ (timeout_waits (trace sel) = 1 ↔ b1 ≠ [] ∧ batch_size b1 < MAX_BATCH)
    ∧ (timeout_waits (trace sel) = 0 →
         b2 = [] ∧ arrivals = [] ∧ after sel = set_fifo_q rest1 st)
    ∧ (timeout_waits (trace sel) = 1 →
         fifo_q (handle_all evs st) = fifo_q st ++ arrivals
         ∧ fifo_q (handle_all evs (set_fifo_q rest1 st)) = rest1 ++ arrivals
         ∧ batch sel ++ fifo_q (after sel) = fifo_q (handle_all evs st)
         ∧ after sel = set_fifo_q (fifo_q (after sel)) (handle_all evs st)).
Proof.
  intros Hs sel. subst sel. unfold select. rewrite Hs.
  destruct (select_fcfs_spec evs st)
    as (b1 & r1 & Hq & Hle1 & Hstop1 & [(Hne & Hlt & H2) | [Hb1 ->]]).
  - destruct H2 as (b2 & r2 & Hq2 & Hle2 & Hstop2 & ->).
    destruct (handle_all_set_fifo_q evs st) as (f & Hf & Hall).
    rewrite Hall in Hq2 |- *. simpl in Hq2.
    exists b1, r1, b2, f. cbn [batch after trace fifo_q set_fifo_q].
    assert ((b1 ++ b2) ++ r2 = fifo_q st ++ f) as Horder
      by (by rewrite <- app_assoc, <- Hq2, Hq, <- app_assoc).
    split; [done|]. split; [done|]. split; [done|]. split; [done|].
    split; [done|]. split; [done|]. split; [done|].
    split; [by vm_compute|]. split; [done|]. split; [by vm_compute|].
    intros _. split; [done|]. split; [by rewrite Hall|].
    split; [by rewrite Hf|].
    apply set_fifo_q_twice.
  - exists b1, r1, [], []. cbn [batch after trace fifo_q set_fifo_q].
    rewrite !app_nil_r.
    split; [done|]. split; [done|]. split; [done|]. split; [done|].
    split; [done|]. split; [done|]. split; [done|].
    split; [vm_compute; lia|]. split.
    { split; [by vm_compute|]. intros [Hne Hlt]. destruct Hb1; [done | lia]. }
    split; [done|]. by vm_compute.
Qed.

Lemma fcfs_selection_witness :
  ∃ b1 rest1 b2 arrivals,
    fifo_q fcfs_state = b1 ++ rest1
    ∧ batch (select [EvClassify None ["y"] "id-5"] fcfs_state) = b1 ++ b2
    ∧ batch (select [EvClassify None ["y"] "id-5"] fcfs_state)
        ++ fifo_q (after (select [EvClassify None ["y"] "id-5"] fcfs_state))
      = fifo_q fcfs_state ++ arrivals
    ∧ fifo_q (handle_all [EvClassify None ["y"] "id-5"] fcfs_state)
      = fifo_q fcfs_state ++ arrivals.
Proof.
  destruct (fcfs_selection [EvClassify None ["y"] "id-5"] fcfs_state eq_refl)
    as (b1 & r1 & b2 & arr & H1 & _ & _ & H2 & H3 & _ & _ & _ & _ & _ & H4).
  exists b1, r1, b2, arr. split; [exact H1|]. split; [exact H2|].
  split; [exact H3|]. apply H4. reflexivity.
Defined.

(* ------------------------------------------------------------------ *)
(** ** Ingress *)

Lemma upper_A_cases (s : string) :
  upper s = "A" ↔ s = "A" ∨ s = "a".
Proof.
  split.
  - destruct s as [|c [|c' s']]; simpl; [done | | done].
    intros [= Hc]. unfold upper_ascii in Hc.
    destruct c as [[] [] [] [] [] [] [] []]; vm_compute in Hc;
      first [discriminate | by left | by right].
  - by intros [-> | ->].
Qed.

(** C8, as stated, fails: under FAIR a request with header [C] lands in
    the class-B queue, not in the class-A queue. *)
Lemma other_class_goes_to_q_b :
  q_a (proxy_classify (Some "C") ["x"] "id-9" (init_state fair)).2 = []
  ∧ cid <$> q_b (proxy_classify (Some "C") ["x"] "id-9" (init_state fair)).2
    = ["C"].
Proof. by vm_compute. Qed.

(** C8, amended.  The handler uppercases the customer header, [A] when the
    header is absent.  Under FAIR an accepted item goes to the class-A
    queue exactly when that uppercased value is [A] (header absent, [A] or
    [a]); every other value, [B] or not, goes to the class-B queue. *)
Theorem fair_bucketing (h : option string) (body : list string)
    (uuid : string) (st : State) :
  strategy st = fair →
  1 ≤ length body ≤ MAX_BATCH →
  ∃ itm,
    (proxy_classify h body uuid st).1 = Enqueued itm
    ∧ cid itm = upper (default "A" h)
    ∧ seqs itm = body
    ∧ (h = None → cid itm = "A")
    ∧ let st' := (proxy_classify h body uuid st).2 in
      fifo_q st' = fifo_q st
      ∧ (cid itm = "A" →
           q_a st' = q_a st ++ [itm] ∧ q_b st' = q_b st)
      ∧ (cid itm ≠ "A" →
           q_a st' = q_a st ∧ q_b st' = q_b st ++ [itm])
      ∧ (cid itm = "A" ↔ h = None ∨ h = Some "A" ∨ h = Some "a").
Proof.
  intros Hs [H1 H2]. unfold proxy_classify.
  apply Nat.leb_le in H1, H2. rewrite H1, H2. simpl.
  unfold _Item__init__. destruct (max_len body) as [m|] eqn:Hm.
  2: { destruct body; [done | discriminate]. }
  simpl. rewrite Hs. rewrite decide_True by done.
  eexists. split; [done|]. simpl.
  split; [done|]. split; [done|]. split; [by intros ->|].
  destruct (String.eqb (upper (default "A" h)) "A") eqn:Hc.
  - apply String.eqb_eq in Hc. simpl.
    split; [done|]. split; [done|]. split; [done|].
    split; [|done]. intros _. apply upper_A_cases in Hc.
    destruct h as [s|]; simpl in Hc; [|by left].
    destruct Hc as [-> | ->]; auto.
  - apply String.eqb_neq in Hc. simpl.
    split; [done|]. split; [done|]. split; [done|].
    split; [done|]. intros [-> | [-> | ->]]; exfalso; by apply Hc.
Qed.

Lemma fair_bucketing_witness :
  ∃ itm, (proxy_classify (Some "b") ["x"] "id-9" (init_state fair)).1
         = Enqueued itm ∧ cid itm = "B".
Proof.
  assert (1 ≤ length ["x"] ≤ MAX_BATCH) as Hb by (unfold MAX_BATCH; simpl; lia).
  destruct (fair_bucketing (Some "b") ["x"] "id-9" (init_state fair) eq_refl Hb)
    as (itm & H1 & H2 & _).
  exists itm. split; [exact H1 | exact H2].
Defined.

(** C9.  A request with no sequence or with more than [MAX_BATCH = 5]
    sequences is answered with HTTP 400 and [Need 1–5 sequences]; no item
    is created and the state, with its three queues, is unchanged. *)
Theorem bounds_violation_rejected (h : option string) (body : list string)
    (uuid : string) (st : State) :
  length body = 0 ∨ MAX_BATCH < length body →
  proxy_classify h body uuid st
  = (Rejected (HTTPException 400 "Need 1–5 sequences"), st)
  ∧ fifo_q (handle (EvClassify h body uuid) st) = fifo_q st
  ∧ q_a (handle (EvClassify h body uuid) st) = q_a st
  ∧ q_b (handle (EvClassify h body uuid) st) = q_b st.
Proof.
  intros Hlen.
  assert (proxy_classify h body uuid st
          = (Rejected (HTTPException 400 "Need 1–5 sequences"), st)) as Heq.
  { unfold proxy_classify. destruct Hlen as [H0 | H6].
    - by rewrite H0.
    - destruct (1 <=? length body)%nat; [|done].
      apply Nat.leb_gt in H6. by rewrite H6. }
  simpl. by rewrite Heq.
Qed.

Lemma bounds_violation_rejected_witness :
  proxy_classify (Some "A") ["a"; "a"; "a"; "a"; "a"; "a"] "id-9" fair_state
  = (Rejected (HTTPException 400 "Need 1–5 sequences"), fair_state).
Proof.
  apply (bounds_violation_rejected (Some "A") ["a"; "a"; "a"; "a"; "a"; "a"]
           "id-9" fair_state).
  right. unfold MAX_BATCH. simpl. lia.
Defined.

(* ------------------------------------------------------------------ *)
(** ** The first FAIR cycle *)

Lemma before_fair_handle (e : Event) (st : State) :
  before_fair st → before_fair (handle e st).
Proof.
  intros [Hl HA].
  destruct (handle_appends e st) as (_ & a & _ & _ & Ha & _ & Hl' & _ & HA' & _).
  split; [congruence|]. rewrite Ha. by apply Forall_app.
Qed.

Lemma before_fair_handle_all (evs : list Event) (st : State) :
  before_fair st → before_fair (handle_all evs st).
Proof.
  revert st. induction evs as [|e evs IH]; intros st H; [done|].
  simpl. apply IH. by apply before_fair_handle.
Qed.

Lemma before_fair_complete (b : list _Item) (r : Downstream) (st : State) :
  before_fair st → before_fair (complete b r st).
Proof. by destruct r. Qed.

Lemma before_fair_cycle (c : Cycle) (st : State) :
  strategy st ≠ fair → before_fair st → before_fair (dispatcher_cycle c st).1.
Proof.
  intros Hs [Hl HA].
  assert (before_fair (after (select (during_wait c) st))) as Hsel.
  { destruct (select_non_fair (during_wait c) st Hs)
      as (a & _ & Ha & _ & Hl' & HA' & _).
    split; [congruence|]. rewrite Ha. by apply Forall_app. }
  unfold dispatcher_cycle. destruct (batch _); [done|]. simpl.
  by apply before_fair_complete, before_fair_handle_all.
Qed.

Lemma before_fair_run (steps : list Step) (st : State) :
  no_fair_cycle steps st → before_fair st → before_fair (run steps st).
Proof.
  revert st. induction steps as [|s steps IH]; intros st Hno H; [done|].
  destruct Hno as [Hs Hno]. simpl. apply IH; [done|].
  destruct s as [e|c]; simpl.
  - by apply before_fair_handle.
  - by apply before_fair_cycle.
Qed.

(** C10.  [last_turn] starts as [B].  In the first cycle that the
    dispatcher starts under FAIR, whatever handlers and SJF or FCFS cycles
    ran before, the turn is [A]; if the class-A queue is non-empty and its
    head fits the empty batch, that head, a class-A item, opens the batch
    and [last_turn] becomes [A]. *)
Theorem first_fair_batch_opens_with_A (DEFAULT : _Strategy)
    (steps : list Step) (evs : list Event) (a : _Item) (qa : list _Item) :
  let st := run steps (init_state DEFAULT) in
  no_fair_cycle steps (init_state DEFAULT) →
  strategy st = fair →
  q_a st = a :: qa →
  fits 0 a = true →
  last_turn (init_state DEFAULT) = "B"
  ∧ next_turn (last_turn st) = "A"
  ∧ head (batch (select evs st)) = Some a
  ∧ cid a = "A"
  ∧ last_turn (after (select evs st)) = "A".
Proof.
  intros st Hno Hs Hq Hfit.
  destruct (before_fair_run steps (init_state DEFAULT) Hno) as [Hl HA].
  { split; [done | constructor]. }
  fold st in Hl, HA. split; [done|].
  assert (next_turn (last_turn st) = "A") as Ht by (by rewrite Hl).
  split; [done|].
  destruct (fair_opens_with_primary evs st a qa Hs) as [Hh Hlt].
  { rewrite Ht. exact Hq. }
  { apply fits_true in Hfit. simpl in Hfit. lia. }
  split; [done|]. split; [|congruence].
  rewrite Hq in HA. by inversion HA.
Qed.

Lemma first_fair_batch_opens_with_A_witness :
  head (batch (select [] (run first_fair_steps (init_state sjf))))
  = Some (mk_Item "id-3" "A" ["u"; "vv"] 2).
Proof.
  refine (proj1 (proj2 (proj2
    (first_fair_batch_opens_with_A sjf first_fair_steps []
       (mk_Item "id-3" "A" ["u"; "vv"] 2) [] _ _ _ _)))).
  - vm_compute. repeat split; discriminate.
  - reflexivity.
  - reflexivity.
  - reflexivity.
Defined.

(* ------------------------------------------------------------------ *)
(** ** Failure path *)

Lemma failed_idemp (e : string) (f : Future) : failed e (failed e f) = failed e f.
Proof. by destruct f. Qed.

Lemma fail_batch_lookup (e : string) (b : list _Item)
    (fs : gmap string Future) (k : string) :
  fail_batch e b fs !! k
  = if decide (k ∈ id <$> b) then failed e <$> fs !! k else fs !! k.
Proof.
  unfold fail_batch. fold (failed e).
  revert fs. induction b as [|x b IH]; intros fs.
  { case_decide as Hk; [|done]. by apply elem_of_nil in Hk. }
  rewrite fmap_cons. cbn [foldl]. rewrite IH, lookup_alter.
  destruct (decide (id x = k)) as [<-|Hne].
  - rewrite (decide_True (P := id x ∈ id x :: _)) by left.
    case_decide; [|done].
    destruct (fs !! id x); simpl; [|done]. by rewrite failed_idemp.
  - destruct (decide (k ∈ id <$> b)) as [Hin|Hin].
    + rewrite (decide_True (P := k ∈ id x :: _)) by (by right). done.
    + rewrite (decide_False (P := k ∈ id x :: _)); [done|].
      rewrite not_elem_of_cons. by split.
Qed.

(** C5.  When the downstream call of a cycle raises, every item of the
    batch whose future is still pending gets the exception with the
    message of the failure, and a future that is already done is not
    written again; nothing else changes, the dispatcher goes on with the
    next cycle, and the handler that resumes on such a future answers
    HTTP 500 with [Downstream service error: ] followed by the message. *)
Theorem downstream_failure_fails_batch (c : Cycle) (st : State)
    (e : string) (rest : list Cycle) :
  downstream c = Raised e →
  let sel := select (during_wait c) st in
  let mid := handle_all (during_call c) (after sel) in
  let st' := (dispatcher_cycle c st).1 in
  batch sel ≠ [] →
  (∀ itm f, itm ∈ batch sel → futs mid !! id itm = Some f →
     futs st' !! id itm
     = Some (if done_ f then f else FutException e))
  ∧ (∀ k, k ∉ id <$> batch sel → futs st' !! k = futs mid !! k)
  ∧ (strategy st', fifo_q st', q_a st', q_b st', last_turn st')
    = (strategy mid, fifo_q mid, q_a mid, q_b mid, last_turn mid)
  ∧ _dispatcher (c :: rest) st
    = (let '(st2, tr2) := _dispatcher rest st' in
       (st2, (dispatcher_cycle c st).2 ++ tr2))
  ∧ ∀ latency,
      proxy_classify_resume (FutException e) latency
      = Some (HTTPException 500 ("Downstream service error: " +:+ e)).
Proof.
  intros He sel mid st' Hne.
  assert (st' = set_futs (fail_batch e (batch sel) (futs mid)) mid) as Hst'.
  { subst st'. unfold dispatcher_cycle. fold sel.
    destruct (batch sel) eqn:Hb; [done|]. simpl. by rewrite He. }
  split; [|split; [|split; [|split]]].
  - intros itm f Hin Hf. rewrite Hst'. simpl.
    rewrite fail_batch_lookup, decide_True, Hf; [done|].
    apply list_elem_of_fmap. by exists itm.
  - intros k Hk. rewrite Hst'. simpl.
    by rewrite fail_batch_lookup, decide_False.
  - by rewrite Hst'.
  - simpl. fold st'. by destruct (dispatcher_cycle c st).
  - done.
Qed.

Lemma downstream_failure_fails_batch_witness :
  futs (dispatcher_cycle failing_cycle fcfs_state).1 !! id item3
  = Some (FutException "Server error '500 Internal Server Error'")
  ∧ futs (dispatcher_cycle failing_cycle fcfs_state).1 !! id item4
    = Some Cancelled.
Proof.
  assert (batch (select (during_wait failing_cycle) fcfs_state) ≠ [])
    as Hne by (vm_compute; discriminate).
  destruct (downstream_failure_fails_batch failing_cycle fcfs_state
              "Server error '500 Internal Server Error'" [] eq_refl Hne)
    as (Hin & _).
  split.
  - apply (Hin item3 Pending); [vm_compute; by left | reflexivity].
  - apply (Hin item4 Cancelled);
      [vm_compute; right; by left | reflexivity].
Defined.

(* ------------------------------------------------------------------ *)
(** ** Demultiplexer *)

Section Demux.

Implicit Types (m : gmap string (_Item * list pyval)) (rr : Results).
Implicit Types (buf ls labels : list pyval) (fs : gmap string Future).

Lemma list_to_map_store_label itm pos lab rr :
  list_to_map (store_label itm pos lab rr)
  = store_label_map itm pos lab (list_to_map rr).
Proof.
  induction rr as [|[k [it buf]] rr IH]; simpl.
  { unfold store_label_map. by rewrite lookup_empty. }
  destruct (String.eqb k (id itm)) eqn:Hk.
  - apply String.eqb_eq in Hk. subst k. simpl. unfold store_label_map.
    by rewrite lookup_insert_eq, insert_insert_eq.
  - apply String.eqb_neq in Hk. simpl. rewrite IH. unfold store_label_map.
    rewrite lookup_insert_ne by done.
    destruct (list_to_map rr !! id itm) as [[it' buf']|];
      by rewrite insert_insert_ne.
Qed.

Lemma list_to_map_group es :
  ∀ rr, list_to_map (foldl (λ rr e, store_label e.1.1 e.1.2 e.2 rr) rr es)
        = foldl store_entry (list_to_map rr) es.
Proof.
  induction es as [|e es IH]; intros rr; [done|].
  simpl. by rewrite IH, list_to_map_store_label.
Qed.

Lemma store_label_keys itm pos lab rr :
  (id itm ∈ (fst <$> rr)
   ∧ (fst <$> store_label itm pos lab rr) = (fst <$> rr))
  ∨ ((id itm ∉ (fst <$> rr))
     ∧ (fst <$> store_label itm pos lab rr) = (fst <$> rr) ++ [id itm]).
Proof.
  induction rr as [|[k [it buf]] rr IH].
  { right. split; [apply not_elem_of_nil | done]. }
  cbn [store_label]. destruct (String.eqb k (id itm)) eqn:Hk.
  - apply String.eqb_eq in Hk. subst k. left. split; [left | done].
  - apply String.eqb_neq in Hk. rewrite !fmap_cons. cbn [fst].
    destruct IH as [[Hin ->] | [Hin ->]].
    + left. split; [by right | done].
    + right. split; [|done]. rewrite not_elem_of_cons. by split.
Qed.

Lemma store_label_wf itm pos lab rr :
  results_wf rr → results_wf (store_label itm pos lab rr).
Proof.
  intros [Hnd Hid]. split.
  - destruct (store_label_keys itm pos lab rr) as [[_ ->] | [Hin ->]]; [done|].
    apply NoDup_app. split; [done|]. split; [|apply NoDup_singleton].
    intros k Hk ->%list_elem_of_singleton. done.
  - clear Hnd. induction Hid as [|[k [it buf]] rr Hk Hid IH]; simpl.
    { by repeat constructor. }
    destruct (String.eqb k (id itm)); by constructor.
Qed.

Lemma group_labels_wf idx labels : results_wf (group_labels idx labels).
Proof.
  unfold group_labels.
  assert (results_wf []) as H by (split; constructor).
  revert H. generalize (@nil (string * (_Item * list pyval))).
  induction (zip idx labels) as [|e es IH]; intros rr H; [done|].
  simpl. by apply IH, store_label_wf.
Qed.

(** Labels of other items leave the entry of an item alone. *)
Lemma store_entry_other m e k : id e.1.1 ≠ k → store_entry m e !! k = m !! k.
Proof.
  intros Hne. unfold store_entry, store_label_map.
  destruct (m !! id e.1.1) as [[it buf]|]; by rewrite lookup_insert_ne.
Qed.

Lemma foldl_store_entry_other es m k :
  Forall (λ e, id e.1.1 ≠ k) es → foldl store_entry m es !! k = m !! k.
Proof.
  revert m. induction es as [|e es IH]; intros m Hes; [done|].
  inversion Hes as [|?? He Hes']; subst. simpl.
  by rewrite IH, store_entry_other.
Qed.

Lemma fill_nil p buf : fill p [] buf = buf.
Proof. unfold fill. simpl. rewrite Nat.add_0_r. apply take_drop. Qed.

Lemma fill_insert p lab ls buf :
  p < length buf → fill (S p) ls (<[p := lab]> buf) = fill p (lab :: ls) buf.
Proof.
  intros Hp. unfold fill.
  rewrite (take_S_r _ _ lab) by (by apply list_lookup_insert_eq).
  rewrite take_insert_ge by done. rewrite drop_insert_lt by lia.
  rewrite <- app_assoc. simpl. by rewrite Nat.add_succ_r.
Qed.

(** The labels of one item land in its buffer from position [p] on. *)
Lemma foldl_store_entry_item itm (l : list string) :
  ∀ ls p it buf m,
    m !! id itm = Some (it, buf) →
    p + length l ≤ length buf →
    foldl store_entry m (zip (imap (λ i _, (itm, p + i)) l) ls) !! id itm
    = Some (it, fill p (take (length l) ls) buf).
Proof.
  induction l as [|s l IH]; intros ls p it buf m Hm Hp.
  { simpl. by rewrite fill_nil. }
  destruct ls as [|lab ls]; simpl.
  { by rewrite fill_nil. }
  rewrite <- fill_insert by (simpl in Hp; lia).
  rewrite (imap_ext _ (λ i _, (itm, S p + i))) by (intros; simpl; f_equal; lia).
  unfold store_entry at 2. simpl. unfold store_label_map. rewrite Hm.
  rewrite Nat.add_0_r.
  apply (IH ls (S p) it (<[p := lab]> buf)); [apply lookup_insert_eq|].
  rewrite length_insert. simpl in Hp. lia.
Qed.

(** The entry of an item after its own labels: none if it got no label,
    else the labels it got, padded with [None]. *)
Lemma foldl_store_entry_item_first itm ls m :
  m !! id itm = None →
  foldl store_entry m (zip (imap (λ i _, (itm, i)) (seqs itm)) ls) !! id itm
  = match take (length (seqs itm)) ls with
    | [] => None
    | w => Some (itm, w ++ replicate (length (seqs itm) - length w) None)
    end.
Proof.
  intros Hm. destruct (seqs itm) as [|s l] eqn:Hl; [done|].
  destruct ls as [|lab ls]; [done|].
  rewrite imap_cons. cbn [zip zip_with foldl].
  rewrite (imap_ext _ (λ i _, (itm, 1 + i))) by done.
  unfold store_entry at 2. cbn [fst snd]. unfold store_label_map.
  rewrite Hm, Hl.
  erewrite foldl_store_entry_item; [|apply lookup_insert_eq|].
  2: { rewrite length_insert, length_replicate. simpl. lia. }
  rewrite fill_insert by (rewrite length_replicate; simpl; lia).
  unfold fill. rewrite take_0, drop_replicate. done.
Qed.

Lemma index_map_app b1 b2 :
  index_map (b1 ++ b2) = index_map b1 ++ index_map b2.
Proof. apply bind_app. Qed.

Lemma length_index_map b : length (index_map b) = batch_size b.
Proof.
  unfold index_map. induction b as [|x b IH]; [done|].
  rewrite bind_cons, length_app, length_imap, IH. done.
Qed.

Lemma index_map_items b : Forall (λ e, e.1 ∈ b) (index_map b).
Proof.
  apply Forall_forall. intros [itm i] Hin. unfold index_map in Hin.
  apply list_elem_of_bind in Hin as (y & Hin & Hy).
  apply elem_of_lookup_imap in Hin as (j & s & [= -> ->] & _). done.
Qed.

Lemma zip_index_map_other b ls k :
  k ∉ id <$> b → Forall (λ e, id e.1.1 ≠ k) (zip (index_map b) ls).
Proof.
  intros Hk. apply Forall_forall. intros [[itm i] lab] Hin Heq.
  apply elem_of_zip_l in Hin.
  pose proof (index_map_items b) as Hall.
  rewrite Forall_forall in Hall. specialize (Hall _ Hin). simpl in *.
  apply Hk, list_elem_of_fmap. by exists itm.
Qed.

(** The dict entry of the item at offset [batch_size pre] of the batch. *)
Lemma group_labels_entry pre itm post labels :
  NoDup (id <$> pre ++ itm :: post) →
  (list_to_map (group_labels (index_map (pre ++ itm :: post)) labels)
     : gmap string (_Item * list pyval)) !! id itm
  = match window (batch_size pre) (length (seqs itm)) labels with
    | [] => None
    | w => Some (itm, w ++ replicate (length (seqs itm) - length w) None)
    end.
Proof.
  intros Hnd. rewrite fmap_app, fmap_cons in Hnd.
  apply NoDup_app in Hnd as (_ & Hpre & Hnd).
  apply NoDup_cons in Hnd as [Hpost _].
  unfold group_labels. rewrite list_to_map_group, list_to_map_nil.
  rewrite index_map_app.
  change (itm :: post) with ([itm] ++ post). rewrite index_map_app.
  rewrite !zip_with_app_l, !foldl_app, length_index_map.
  rewrite foldl_store_entry_other by (by apply zip_index_map_other).
  assert (index_map [itm] = imap (λ i _, (itm, i)) (seqs itm)) as ->.
  { unfold index_map. by rewrite bind_cons, app_nil_r. }
  rewrite length_imap, foldl_store_entry_item_first.
  - unfold window. by rewrite take_take, Nat.min_id.
  - rewrite foldl_store_entry_other; [apply lookup_empty|].
    apply zip_index_map_other. intros Hin. by apply (Hpre (id itm)); [|left].
Qed.

(** The second demux loop, future by future. *)
Lemma foldl_resolve_one rr :
  results_wf rr →
  ∀ fs k, foldl resolve_one fs rr !! k
          = resolved
              ((list_to_map rr : gmap string (_Item * list pyval)) !! k)
              (fs !! k).
Proof.
  intros [Hnd Hid].
  induction rr as [|[k' [it buf]] rr IH]; intros fs k.
  { simpl. rewrite lookup_empty. by destruct (fs !! k). }
  inversion Hid as [|?? Hk' Hid']; subst. simpl in Hk'. subst k'.
  rewrite fmap_cons, NoDup_cons in Hnd. destruct Hnd as [Hfresh Hnd].
  cbn [foldl]. rewrite IH by done. rewrite list_to_map_cons.
  assert (∀ f : Future,
            resolved
              ((list_to_map rr : gmap string (_Item * list pyval)) !! id it)
              (Some f) = Some f) as Hrest.
  { intros f. rewrite (proj1 (not_elem_of_list_to_map _ _) Hfresh). done. }
  destruct (decide (k = id it)) as [->|Hne].
  - rewrite lookup_insert_eq. unfold resolve_one.
    destruct (fs !! id it) as [f|] eqn:Hf; simpl.
    + destruct (forallb is_not_None buf && negb (done_ f)).
      * by rewrite lookup_insert_eq, Hrest.
      * by rewrite Hf, Hrest.
    + rewrite Hf. by destruct (list_to_map rr !! id it) as [[??]|].
  - rewrite lookup_insert_ne by done. f_equal. unfold resolve_one.
    destruct (fs !! id it) as [f|]; [|done].
    destruct (_ && _); [by rewrite lookup_insert_ne | done].
Qed.

(** What the demultiplexer does to the future of an item of the batch. *)
Lemma demux_lookup pre itm post labels fs :
  NoDup (id <$> pre ++ itm :: post) →
  demux (pre ++ itm :: post) labels fs !! id itm
  = resolved
      (match window (batch_size pre) (length (seqs itm)) labels with
       | [] => None
       | w => Some (itm, w ++ replicate (length (seqs itm) - length w) None)
       end)
      (fs !! id itm).
Proof.
  intros Hnd. unfold demux.
  rewrite foldl_resolve_one by apply group_labels_wf.
  by rewrite group_labels_entry.
Qed.

Lemma demux_excess b labels fs :
  demux b labels fs = demux b (take (length (flatten b)) labels) fs.
Proof.
  unfold demux, group_labels.
  by rewrite length_flatten, <- length_index_map, zip_with_take_r.
Qed.

End Demux.

Lemma forallb_padded (w : list pyval) (k : nat) :
  forallb is_not_None (w ++ replicate (S k) None) = false.
Proof. rewrite forallb_app. simpl. apply andb_false_r. Qed.

Lemma forallb_is_not_None (w : list pyval) :
  Forall (λ x, x ≠ None) w → forallb is_not_None w = true.
Proof.
  induction 1 as [|x w Hx _ IH]; [done|]. simpl. rewrite IH.
  by destruct x.
Qed.

Lemma flatten_lookup (pre : list _Item) (itm : _Item) (post : list _Item)
    (p : nat) :
  p < length (seqs itm) →
  flatten (pre ++ itm :: post) !! (batch_size pre + p) = seqs itm !! p.
Proof.
  intros Hp. unfold flatten. rewrite bind_app, bind_cons.
  fold (flatten pre). rewrite lookup_app_r; rewrite length_flatten; [|lia].
  replace (batch_size pre + p - batch_size pre) with p by lia.
  by rewrite lookup_app_l.
Qed.

(** C4, as stated, fails: when the downstream returns one label for an
    item of two sequences, the future of the item is left pending, it does
    not get the error [truncated downstream response], and its handler
    stays suspended. *)
Lemma truncated_response_leaves_item_pending :
  demux [item3] [Some "code"] pending_futs !! id item3 = Some Pending
  ∧ demux [item3] [Some "code"] pending_futs !! id item3
    ≠ Some (FutException "truncated downstream response")
  ∧ proxy_classify_resume Pending 0 = None.
Proof. by vm_compute. Qed.

(** C4, amended.  After a successful call the labels are scattered through
    the index map: the item at offset [o] of the flattened batch, with [n]
    sequences, owns the labels [o .. o+n-1].  If all of them came back
    (and none is [None]) its future, unless it is already done, is resolved
    with exactly these [n] labels, in the order of its sequences, and the
    handler answers 200 with them.  If the response is too short to cover
    the item, its future is left as it was: no error is set, and the
    handler of a pending future stays suspended.  Labels beyond the
    flattened batch are ignored. *)
Theorem demux_resolves_complete_items (pre : list _Item) (itm : _Item)
    (post : list _Item) (labels : list pyval) (fs : gmap string Future)
    (f : Future) :
  let b := pre ++ itm :: post in
  let o := batch_size pre in
  let n := length (seqs itm) in
  let w := window o n labels in
  NoDup (id <$> b) →
  1 ≤ n →
  fs !! id itm = Some f →
  (o + n ≤ length labels → Forall (λ x, x ≠ None) w →
     demux b labels fs !! id itm
     = Some (if done_ f then f else FutResult w)
     ∧ length w = n
     ∧ (∀ p, p < n →
          w !! p = labels !! (o + p) ∧ flatten b !! (o + p) = seqs itm !! p)
     ∧ ∀ latency,
         proxy_classify_resume (FutResult w) latency
         = Some (Reply200 w latency))
  ∧ (length labels < o + n →
       demux b labels fs !! id itm = Some f
       ∧ ∀ latency, proxy_classify_resume Pending latency = None)
  ∧ demux b labels fs = demux b (take (length (flatten b)) labels) fs.
Proof.
  intros b o n w Hnd Hn Hf.
  pose proof (demux_lookup pre itm post labels fs Hnd) as Hd.
  fold b o n w in Hd. rewrite Hf in Hd.
  assert (length w = n `min` (length labels - o)) as Hlen.
  { unfold w, window. by rewrite length_take, length_drop. }
  assert (w ≠ [] →
          demux b labels fs !! id itm
          = resolved (Some (itm, w ++ replicate (n - length w) None))
              (Some f)) as Hd'.
  { intros Hw. rewrite Hd. by destruct w. }
  split; [|split].
  - intros Hall Hsome.
    assert (length w = n) as Hwn by lia.
    split; [|split; [done|split; [|done]]].
    + rewrite Hd' by (intros Hw; rewrite Hw in Hwn; simpl in Hwn; lia).
      rewrite Hwn, Nat.sub_diag. simpl replicate. rewrite app_nil_r.
      unfold resolved. rewrite forallb_is_not_None by done.
      by destruct (done_ f).
    + intros p Hp. split; [|by apply flatten_lookup].
      unfold w, window. by rewrite lookup_take_lt, lookup_drop.
  - intros Hshort. split; [|done].
    destruct (decide (w = [])) as [Hw|Hw]; [by rewrite Hd, Hw|].
    rewrite Hd' by done.
    assert (∃ k, n - length w = S k) as [k ->].
    { exists (n - length w - 1). lia. }
    unfold resolved. by rewrite forallb_padded.
  - apply demux_excess.
Qed.

Lemma demux_resolves_complete_items_witness :
  demux [item3; item4] [Some "code"; Some "not code"; Some "code"; Some "x"]
    pending_futs !! id item4
  = Some (FutResult [Some "code"]).
Proof.
  assert (NoDup (id <$> [item3] ++ item4 :: [])) as Hnd.
  { apply (bool_decide_unpack _). vm_compute. exact I. }
  assert (1 ≤ length (seqs item4)) as Hn by (simpl; lia).
  destruct (demux_resolves_complete_items [item3] item4 []
              [Some "code"; Some "not code"; Some "code"; Some "x"]
              pending_futs Pending Hnd Hn eq_refl) as (Hfull & _).
  apply Hfull.
  - simpl. lia.
  - vm_compute. repeat constructor; discriminate.
Defined.

(* ------------------------------------------------------------------ *)
(** ** The classification server *)

Section Server.

Import classification_server.

Lemma prefix_append (s1 s2 : string) :
  String.prefix s1 s2 = true ↔ ∃ post, s2 = s1 +:+ post.
Proof.
  revert s2. induction s1 as [|a s1 IH]; intros s2.
  - split; [intros _; by exists s2 | intros _; by destruct s2].
  - destruct s2 as [|b s2]; simpl.
    + split; [done | intros [post [=]]].
    + destruct (ascii_dec a b) as [->|Hne].
      * rewrite IH. split; intros [post Hp]; exists post.
        -- by rewrite Hp.
        -- by injection Hp.
      * split; [done|]. intros [post [= ? _]]. done.
Qed.

Lemma contains_occurs (tok text : string) :
  contains tok text = true ↔ ∃ pre post, text = pre +:+ tok +:+ post.
Proof.
  induction text as [|c text IH].
  - cbn [contains]. rewrite orb_false_r, prefix_append. split.
    + intros [post Hp]. by exists "", post.
    + intros ([|??] & post & Hp); [by exists post | done].
  - cbn [contains]. rewrite orb_true_iff, prefix_append, IH. split.
    + intros [[post Hp] | (pre & post & Hp)].
      * by exists "", post.
      * exists (String c pre), post. simpl. by rewrite Hp.
    + intros ([|a pre] & post & Hp).
      * left. by exists post.
      * right. injection Hp as _ Hp. by exists pre, post.
Qed.

Lemma is_code_occurs (text : string) :
  _is_code text = true
  ↔ ∃ tok pre post,
      tok ∈ [";"; "{"; "}"; "def "; "class "]
      ∧ text = pre +:+ tok +:+ post.
Proof.
  unfold _is_code. rewrite existsb_exists. split.
  - intros (tok & Hin & Hc). apply contains_occurs in Hc as (pre & post & Hc).
    exists tok, pre, post. split; [by apply list_elem_of_In | done].
  - intros (tok & pre & post & Hin & Ht). exists tok.
    split; [by apply list_elem_of_In|]. apply contains_occurs. by exists pre, post.
Qed.

Lemma append_assoc (a b c : string) : (a +:+ b) +:+ c = a +:+ b +:+ c.
Proof.
  induction a as [|x a IH]; [done|].
  change (String x ((a +:+ b) +:+ c) = String x (a +:+ b +:+ c)).
  by rewrite IH.
Qed.

(** X1.  A text is classified as code exactly when one of the five tokens
    occurs somewhere in it; hence code stays code whatever is written
    before and after it, and a text is not code only if no token occurs. *)
Theorem is_code_iff_token_occurs (text : string) :
  (_is_code text = true
   ↔ ∃ tok pre post,
       tok ∈ [";"; "{"; "}"; "def "; "class "]
       ∧ text = pre +:+ tok +:+ post)
  ∧ (∀ before after,
       _is_code text = true → _is_code (before +:+ text +:+ after) = true).
Proof.
  split; [apply is_code_occurs|].
  intros before after. rewrite !is_code_occurs.
  intros (tok & pre & post & Hin & ->).
  exists tok, (before +:+ pre), (post +:+ after). split; [done|].
  by rewrite !append_assoc.
Qed.

Lemma is_code_iff_token_occurs_witness :
  _is_code ("x = 1" +:+ "def f" +:+ " # end") = true.
Proof.
  apply (proj2 (is_code_iff_token_occurs "def f") "x = 1" " # end").
  reflexivity.
Defined.

End Server.

(* ------------------------------------------------------------------ *)
(** ** The longest sequence *)

(** The largest element of a list of lengths. *)
Lemma foldl_max_foldr (a : nat) (l : list nat) :
  foldl Nat.max a l = Nat.max a (foldr Nat.max 0 l).
Proof.
  revert a. induction l as [|x l IH]; intros a; simpl; [lia|].
  rewrite IH. lia.
Qed.

Lemma max_len_foldr (l : list string) :
  l ≠ [] → max_len l = Some (foldr Nat.max 0 (String.length <$> l)).
Proof.
  destruct l as [|s l]; [done|]. intros _. simpl.
  by rewrite foldl_max_foldr.
Qed.

Lemma foldr_max_bound (l : list nat) (x : nat) :
  x ∈ l → x ≤ foldr Nat.max 0 l.
Proof.
  induction 1 as [x l | x y l _ IH]; simpl; lia.
Qed.

Lemma foldr_max_attained (l : list nat) :
  l ≠ [] → foldr Nat.max 0 l ∈ l.
Proof.
  induction l as [|x l IH]; [done|]. intros _. simpl.
  destruct l as [|y l].
  { simpl. rewrite Nat.max_0_r. by left. }
  destruct (Nat.max_spec x (foldr Nat.max 0 (y :: l))) as [[_ ->] | [_ ->]].
  - right. by apply IH.
  - by left.
Qed.

Lemma foldr_max_app (l1 l2 : list nat) :
  foldr Nat.max 0 (l1 ++ l2)
  = Nat.max (foldr Nat.max 0 l1) (foldr Nat.max 0 l2).
Proof. induction l1 as [|x l1 IH]; simpl; [done|]. rewrite IH. lia. Qed.

Lemma max_len_spec (l : list string) (m : nat) :
  max_len l = Some m →
  (∀ s, s ∈ l → String.length s ≤ m)
  ∧ ∃ s, s ∈ l ∧ String.length s = m.
Proof.
  destruct (decide (l = [])) as [->|Hne]; [done|].
  rewrite max_len_foldr by done. intros [= <-]. split.
  - intros s Hs. apply foldr_max_bound, list_elem_of_fmap. by exists s.
  - assert (String.length <$> l ≠ []) as Hne' by (by destruct l).
    apply foldr_max_attained, list_elem_of_fmap in Hne' as (s & Hs & Hin).
    by exists s.
Qed.

(** X2.  The constructor of a work item fails (as [max] raises) exactly on
    an empty list of sequences; otherwise the item keeps the sequences
    verbatim and its [maxlen] is the length of a longest one: no sequence
    is longer, and one has that length. *)
Theorem item_init_maxlen (uuid c : string) (body : list string) :
  (_Item__init__ uuid c body = None ↔ body = [])
  ∧ ∀ itm, _Item__init__ uuid c body = Some itm →
      id itm = uuid ∧ cid itm = c ∧ seqs itm = body
      ∧ item_wf itm
      ∧ (∀ s, s ∈ body → String.length s ≤ maxlen itm)
      ∧ ∃ s, s ∈ body ∧ String.length s = maxlen itm.
Proof.
  unfold _Item__init__. split.
  - by destruct body.
  - intros itm. destruct (max_len body) as [m|] eqn:Hm; [|done].
    simpl. intros [= <-]. simpl.
    split; [done|]. split; [done|]. split; [done|]. split; [done|].
    by apply max_len_spec.
Qed.

Lemma item_init_maxlen_witness :
  ∃ itm, _Item__init__ "id-7" "A" ["ab"; "abcd"; "a"] = Some itm
         ∧ maxlen itm = 4.
Proof.
  eexists. split; [reflexivity|].
  destruct (proj2 (item_init_maxlen "id-7" "A" ["ab"; "abcd"; "a"]) _ eq_refl)
    as (_ & _ & _ & _ & _ & _).
  reflexivity.
Defined.

(** The longest sequence of a flattened batch. *)
Lemma max_len_flatten (b : list _Item) :
  Forall item_wf b → flatten b ≠ [] →
  max_len (flatten b) = Some (batch_maxlen b).
Proof.
  intros Hwf Hne. rewrite max_len_foldr by done. f_equal.
  unfold flatten, batch_maxlen. clear Hne.
  induction Hwf as [|x b Hx _ IH]; [done|].
  rewrite bind_cons, fmap_app, foldr_max_app, IH, fmap_cons. simpl. f_equal.
  unfold item_wf in Hx. destruct (decide (seqs x = [])) as [He|Hne].
  { by rewrite He in Hx. }
  rewrite max_len_foldr in Hx by done. by injection Hx.
Qed.

Lemma flatten_nonempty (b : list _Item) :
  b ≠ [] → Forall admissible b → flatten b ≠ [].
Proof.
  destruct b as [|x b]; [done|]. intros _ Hadm.
  inversion Hadm as [|?? [Hx _] _]; subst.
  unfold flatten. rewrite bind_cons. destruct (seqs x); [simpl in Hx; lia | done].
Qed.

Section ServerResponse.

Import classification_server.

(** X3.  The server answers 400 with [Need 1 - 5 sequences per request]
    exactly when it gets no sequence or more than five.  Otherwise it
    sleeps the square of the length of a longest sequence, in microseconds,
    and answers one label per sequence, in the order of the sequences:
    [code] where a token occurs, [not code] elsewhere. *)
Theorem classify_response (sequences : list string) :
  (classify sequences
   = ClassifyException 400 "Need 1 - 5 sequences per request"
   ↔ length sequences = 0 ∨ 5 < length sequences)
  ∧ (1 ≤ length sequences ≤ 5 →
     ∃ longest results,
       classify sequences = ClassifyResponse (longest ^ 2) results
       ∧ (∀ s, s ∈ sequences → String.length s ≤ longest)
       ∧ (∃ s, s ∈ sequences ∧ String.length s = longest)
       ∧ length results = length sequences
       ∧ ∀ i s, sequences !! i = Some s →
           results !! i
           = Some (if _is_code s then "code" else "not code")).
Proof.
  unfold classify. split.
  - destruct (1 <=? length sequences)%nat eqn:H1;
      [destruct (length sequences <=? 5)%nat eqn:H2|]; simpl.
    + apply Nat.leb_le in H1, H2.
      destruct (max_len sequences); split; try done; lia.
    + apply Nat.leb_gt in H2. split; [intros _; by right | done].
    + apply Nat.leb_gt in H1. split; [intros _; left; lia | done].
  - intros [H1 H2]. apply Nat.leb_le in H1 as H1', H2 as H2'.
    rewrite H1', H2'. simpl.
    destruct (max_len sequences) as [m|] eqn:Hm.
    2: { destruct sequences; [simpl in H1; lia | done]. }
    destruct (max_len_spec _ _ Hm) as [Hle Hat].
    eexists m, _. split; [done|]. split; [done|]. split; [done|].
    split; [by rewrite length_fmap|].
    intros i s Hs. rewrite list_lookup_fmap, Hs. simpl.
    by destruct (_is_code s).
Qed.

Lemma classify_response_witness :
  ∃ longest results,
    classify ["def foo(): pass"; "hello world"]
    = ClassifyResponse (longest ^ 2) results
    ∧ length results = 2.
Proof.
  assert (1 ≤ length ["def foo(): pass"; "hello world"] ≤ 5) as Hb
    by (simpl; lia).
  destruct (proj2 (classify_response ["def foo(): pass"; "hello world"]) Hb)
    as (longest & results & Hc & _ & _ & Hl & _).
  exists longest, results. split; [exact Hc | exact Hl].
Defined.

End ServerResponse.

(* ------------------------------------------------------------------ *)
(** ** What the queues hold in every reachable state *)

(** What a handler appends: at most the one item it built, under the uuid
    it drew, within the bounds and with the [maxlen] of its sequences. *)
Lemma handle_arrivals (e : Event) (st : State) :
  ∃ f a b,
    fifo_q (handle e st) = fifo_q st ++ f
    ∧ q_a (handle e st) = q_a st ++ a
    ∧ q_b (handle e st) = q_b st ++ b
    ∧ Forall (λ itm, admissible itm ∧ item_wf itm) (f ++ a ++ b)
    ∧ Forall (λ itm, cid itm = "A") a
    ∧ Forall (λ itm, cid itm ≠ "A") b
    ∧ id <$> (f ++ a ++ b) ⊆+ event_uuids e.
Proof.
  destruct e as [h body uuid | s]; simpl.
  2: { exists [], [], []. solve_appends. }
  unfold proxy_classify.
  destruct (1 <=? length body)%nat eqn:H1;
    [destruct (length body <=? MAX_BATCH)%nat eqn:H2|]; simpl.
  2,3: exists [], [], []; solve_appends; apply submseteq_nil_l.
  apply Nat.leb_le in H1, H2.
  unfold _Item__init__. destruct (max_len body) as [m|] eqn:Hm; simpl.
  2: { exists [], [], []. solve_appends. apply submseteq_nil_l. }
  set (itm := mk_Item _ _ _ _).
  assert (admissible itm ∧ item_wf itm) by (by split).
  case_decide as Hs.
  2: { exists [itm], [], []. solve_appends. }
  destruct (String.eqb (upper (default "A" h)) "A") eqn:Hc.
  - apply String.eqb_eq in Hc. exists [], [itm], []. solve_appends.
  - apply String.eqb_neq in Hc. exists [], [], [itm]. solve_appends.
Qed.

Lemma handle_all_arrivals (evs : list Event) (st : State) :
  ∃ f a b,
    fifo_q (handle_all evs st) = fifo_q st ++ f
    ∧ q_a (handle_all evs st) = q_a st ++ a
    ∧ q_b (handle_all evs st) = q_b st ++ b
    ∧ Forall (λ itm, admissible itm ∧ item_wf itm) (f ++ a ++ b)
    ∧ Forall (λ itm, cid itm = "A") a
    ∧ Forall (λ itm, cid itm ≠ "A") b
    ∧ id <$> (f ++ a ++ b) ⊆+ evs ≫= event_uuids.
Proof.
  revert st. induction evs as [|e evs IH]; intros st.
  { exists [], [], []. solve_appends. }
  destruct (handle_arrivals e st)
    as (f1 & a1 & b1 & Hf1 & Ha1 & Hb1 & Hadm1 & HA1 & HB1 & Hid1).
  destruct (IH (handle e st))
    as (f2 & a2 & b2 & Hf2 & Ha2 & Hb2 & Hadm2 & HA2 & HB2 & Hid2).
  exists (f1 ++ f2), (a1 ++ a2), (b1 ++ b2).
  unfold handle_all in *. cbn [foldl].
  rewrite Hf2, Ha2, Hb2, Hf1, Ha1, Hb1, <- !app_assoc.
  split; [done|]. split; [done|]. split; [done|].
  rewrite !Forall_app in *. destruct_and!.
  split; [by repeat split|]. split; [by split|]. split; [by split|].
  rewrite bind_cons. etrans; [|by apply submseteq_app].
  apply Permutation_submseteq. rewrite <- !fmap_app.
  apply fmap_Permutation. solve_Permutation.
Qed.

Lemma shrinks_refl (st : State) : shrinks st st.
Proof. by repeat split. Qed.

Lemma deque_remove_sublist (x : _Item) (q : list _Item) :
  deque_remove x q `sublist_of` q.
Proof.
  induction q as [|y q IH]; simpl; [done|].
  destruct (same_item y x); [by apply sublist_cons | by apply sublist_skip].
Qed.

Lemma deque_remove_all_sublist (taken q : list _Item) :
  foldl (λ q x, deque_remove x q) q taken `sublist_of` q.
Proof.
  revert q. induction taken as [|x taken IH]; intros q; simpl; [done|].
  etrans; [apply IH | apply deque_remove_sublist].
Qed.

(** A selection takes items out of the queues, and in between lets the
    handlers of the FCFS wait append to them; every item of the batch
    comes from a queue. *)
Lemma select_decompose (evs : list Event) (st : State) :
  ∃ st1 evs',
    (evs' = [] ∨ evs' = evs)
    ∧ shrinks st st1
    ∧ shrinks (handle_all evs' st1) (after (select evs st))
    ∧ Forall (λ x, x ∈ queued st ∨ x ∈ queued (handle_all evs' st1))
        (batch (select evs st)).
Proof.
  unfold select. destruct (strategy st).
  - destruct (select_sjf_spec st) as (rest & Hv & _ & _ & _ & Haft & _).
    exists (after (select_sjf st)), []. split; [by left|].
    split; [|split; [apply shrinks_refl|]].
    + rewrite Haft. repeat split; simpl; [|done..].
      apply deque_remove_all_sublist.
    + apply Forall_forall. intros x Hx. left. unfold queued.
      apply elem_of_app. left.
      rewrite <- (sorted_perm (fifo_q st)), Hv. apply elem_of_app. by left.
  - destruct (select_fair_spec st)
      as (pt & pr & stk & sr & Hp & Hsec & -> & _).
    cbn [batch after]. eexists _, []. split; [by left|].
    split; [|split; [apply shrinks_refl|]].
    + unfold shrinks.
      destruct (String.eqb _ _); simpl in *; rewrite Hp, Hsec;
        repeat split; try done; by apply sublist_inserts_l.
    + apply Forall_forall. intros x Hx. left. unfold queued.
      apply elem_of_app in Hx.
      destruct (String.eqb _ _); rewrite Hp, Hsec, !elem_of_app; tauto.
  - destruct (select_fcfs_spec evs st)
      as (b1 & r1 & Hq & _ & _ & [(_ & _ & H2) | [_ ->]]).
    + destruct H2 as (b2 & r2 & Hq2 & _ & _ & ->). cbn [batch after].
      exists (set_fifo_q r1 st), evs. split; [by right|]. split; [|split].
      * repeat split; simpl; [|done..]. rewrite Hq. by apply sublist_inserts_l.
      * repeat split; simpl; [|done..]. rewrite Hq2. by apply sublist_inserts_l.
      * apply Forall_forall. intros x Hx. unfold queued.
        apply elem_of_app in Hx as [Hx|Hx].
        -- left. rewrite Hq, !elem_of_app. tauto.
        -- right. rewrite Hq2, !elem_of_app. tauto.
    + cbn [batch after]. exists (set_fifo_q r1 st), [].
      split; [by left|]. split; [|split; [apply shrinks_refl|]].
      * repeat split; simpl; [|done..]. rewrite Hq. by apply sublist_inserts_l.
      * apply Forall_forall. intros x Hx. left. unfold queued.
        rewrite Hq, !elem_of_app. tauto.
Qed.

Lemma Forall_sublist_of {A} (P : A → Prop) (l k : list A) :
  l `sublist_of` k → Forall P k → Forall P l.
Proof.
  rewrite !Forall_forall. intros Hs Hk x Hx. by eapply Hk, elem_of_sublist.
Qed.

Lemma queue_invariant_shrinks (st st' : State) :
  shrinks st st' → queue_invariant st → queue_invariant st'.
Proof.
  intros (Hf & Ha & Hb & _) (Hq & HA & HB).
  split; [|split]; [|by eapply Forall_sublist_of..].
  eapply Forall_sublist_of; [|exact Hq].
  by repeat apply sublist_app.
Qed.

Lemma queue_invariant_handle_all (evs : list Event) (st : State) :
  queue_invariant st → queue_invariant (handle_all evs st).
Proof.
  intros (Hq & HA & HB). unfold queue_invariant.
  destruct (handle_all_arrivals evs st)
    as (f & a & b & -> & -> & -> & Hadm & HA' & HB' & _).
  rewrite !Forall_app in *. destruct_and!. by repeat split.
Qed.

Lemma queue_invariant_select (evs : list Event) (st : State) :
  queue_invariant st →
  queue_invariant (after (select evs st))
  ∧ Forall (λ itm, admissible itm ∧ item_wf itm) (batch (select evs st)).
Proof.
  intros Hinv.
  destruct (select_decompose evs st) as (st1 & evs' & _ & H1 & H2 & Hb).
  assert (queue_invariant (handle_all evs' st1)) as Hmid.
  { by eapply queue_invariant_handle_all, queue_invariant_shrinks. }
  split; [by eapply queue_invariant_shrinks|].
  eapply Forall_impl; [exact Hb|]. intros x [Hx|Hx]; simpl in Hx.
  - destruct Hinv as [Hq _]. rewrite Forall_forall in Hq. by apply Hq.
  - destruct Hmid as [Hq _]. rewrite Forall_forall in Hq. by apply Hq.
Qed.

Lemma queue_invariant_cycle (c : Cycle) (st : State) :
  queue_invariant st → queue_invariant (dispatcher_cycle c st).1.
Proof.
  intros Hinv.
  destruct (queue_invariant_select (during_wait c) st Hinv) as [Haft _].
  unfold dispatcher_cycle. destruct (batch _); [done|]. simpl.
  apply (queue_invariant_handle_all (during_call c)) in Haft.
  by destruct (downstream c).
Qed.

Lemma queue_invariant_run (steps : list Step) (st : State) :
  queue_invariant st → queue_invariant (run steps st).
Proof.
  revert st. induction steps as [|s steps IH]; intros st Hinv; [done|].
  simpl. apply IH. destruct s as [e|c]; simpl.
  - by apply (queue_invariant_handle_all [e]).
  - by apply queue_invariant_cycle.
Qed.

(** X4.  In every state that a run of handlers and dispatcher cycles
    reaches from the initial state, every queued item has between 1 and
    [MAX_BATCH] sequences and carries the length of its longest sequence as
    [maxlen], the class-A queue holds items of customer [A] only and the
    class-B queue holds none of them; and so are the items of the batch
    that the next cycle selects. *)
Theorem reachable_queue_invariant (DEFAULT : _Strategy) (steps : list Step)
    (evs : list Event) :
  let st := run steps (init_state DEFAULT) in
  queue_invariant st
  ∧ Forall (λ itm, admissible itm ∧ item_wf itm) (batch (select evs st)).
Proof.
  intros st.
  assert (queue_invariant st) as Hinv.
  { apply queue_invariant_run. by repeat split. }
  split; [done|]. by apply queue_invariant_select.
Qed.

(* ------------------------------------------------------------------ *)
(** ** Items are neither lost nor duplicated *)

Lemma submseteq_NoDup {A} (l k : list A) : l ⊆+ k → NoDup k → NoDup l.
Proof.
  intros (l' & Hsub & Hperm)%submseteq_sublist_l Hnd.
  eapply sublist_NoDup; [|exact Hsub]. by rewrite Hperm.
Qed.

Lemma shrinks_queued (st st' : State) :
  shrinks st st' → queued st' `sublist_of` queued st.
Proof. intros (Hf & Ha & Hb & _). by repeat apply sublist_app. Qed.

Lemma handle_all_queued (evs : list Event) (st : State) :
  ∃ arrivals,
    queued (handle_all evs st) ≡ₚ queued st ++ arrivals
    ∧ id <$> arrivals ⊆+ evs ≫= event_uuids
    ∧ Forall (λ itm, admissible itm ∧ item_wf itm) arrivals.
Proof.
  destruct (handle_all_arrivals evs st)
    as (f & a & b & Hf & Ha & Hb & Hadm & _ & _ & Hid).
  exists (f ++ a ++ b). split; [|done].
  unfold queued. rewrite Hf, Ha, Hb. solve_Permutation.
Qed.

Lemma filter_none {A} (P : A → Prop) `{!∀ x, Decision (P x)} (l : list A) :
  Forall (λ x, ¬ P x) l → filter P l = [].
Proof.
  induction 1 as [|x l HP _ IH]; [done|]. by rewrite filter_cons_False.
Qed.

(** Under SJF the items that stay are those of the sorted view that were
    not admitted. *)
Lemma sjf_remaining (b rest fifo : list _Item) :
  NoDup (id <$> fifo) → fifo ≡ₚ b ++ rest →
  filter (λ y, id y ∉ id <$> b) fifo ≡ₚ rest.
Proof.
  intros Hnd Hperm. rewrite Hperm in Hnd |- *.
  rewrite fmap_app in Hnd. apply NoDup_app in Hnd as (_ & Hdisj & _).
  rewrite filter_app.
  assert (filter (λ y, id y ∉ id <$> b) b = []) as ->.
  { apply filter_none, Forall_forall. intros y Hy Hn. apply Hn.
    apply list_elem_of_fmap. by exists y. }
  simpl. apply reflexive_eq, filter_all, Forall_forall.
  intros y Hy Hin. apply (Hdisj (id y)); [done|].
  apply list_elem_of_fmap. by exists y.
Qed.

(** A selection moves items from the queues to the batch: with distinct
    ids in the FIFO, the batch and the queues it leaves are together the
    queues it found and what the handlers of the FCFS wait appended. *)
Lemma select_conserves (evs : list Event) (st : State) :
  NoDup (id <$> fifo_q st) →
  ∃ arrivals,
    batch (select evs st) ++ queued (after (select evs st))
    ≡ₚ queued st ++ arrivals
    ∧ id <$> arrivals ⊆+ evs ≫= event_uuids
    ∧ Forall (λ itm, admissible itm ∧ item_wf itm) arrivals
    ∧ (strategy st ≠ fcfs → arrivals = []).
Proof.
  intros Hnd. unfold select. destruct (strategy st).
  - exists []. split; [|split; [apply submseteq_nil_l | by split]].
    destruct (select_sjf_spec st) as (rest & Hv & _ & _ & _ & Haft & _).
    rewrite Haft, deque_remove_all_filter by done.
    unfold queued. simpl. rewrite app_nil_r.
    assert (fifo_q st ≡ₚ batch (select_sjf st) ++ rest) as Hperm
      by (by rewrite <- Hv, sorted_perm).
    rewrite (sjf_remaining _ _ _ Hnd Hperm).
    rewrite !(assoc_L (++)). by rewrite <- Hperm.
  - exists []. split; [|split; [apply submseteq_nil_l | by split]].
    destruct (select_fair_spec st)
      as (pt & pr & stk & sr & Hp & Hsec & -> & _).
    cbn [batch after]. unfold queued. rewrite app_nil_r.
    destruct (String.eqb _ _); simpl in *; rewrite Hp, Hsec;
      solve_Permutation.
  - destruct (select_fcfs_spec evs st)
      as (b1 & r1 & Hq & _ & _ & [(_ & _ & H2) | [_ ->]]).
    + destruct H2 as (b2 & r2 & Hq2 & _ & _ & ->). cbn [batch after].
      destruct (handle_all_arrivals evs (set_fifo_q r1 st))
        as (f & a & b & Hf & Ha & Hb & Hadm & _ & _ & Hid).
      simpl in Hf, Ha, Hb. exists (f ++ a ++ b).
      split; [|by repeat split]. unfold queued. simpl.
      rewrite Ha, Hb, Hq.
      transitivity (b1 ++ (b2 ++ r2) ++ (q_a st ++ a) ++ q_b st ++ b);
        [solve_Permutation|].
      rewrite <- Hq2, Hf. solve_Permutation.
    + cbn [batch after]. exists [].
      split; [|split; [apply submseteq_nil_l | by split]].
      unfold queued. simpl. rewrite Hq, app_nil_r. solve_Permutation.
Qed.

(** X5.  A selection neither loses nor duplicates a work item.  With
    distinct ids in the FIFO, the batch together with the three queues it
    leaves is a rearrangement of the three queues it found; when the FCFS
    wait took place, of the three queues as the handlers that ran during
    the wait leave them, so with every item that they enqueued.  The
    futures are those of that state, and a wait occurs under FCFS only. *)
Theorem selection_conserves_items (evs : list Event) (st : State) :
  NoDup (id <$> fifo_q st) →
  let sel := select evs st in
  let found := match trace sel with [] => st | _ => handle_all evs st end in
  batch sel ++ fifo_q (after sel) ++ q_a (after sel) ++ q_b (after sel)
  ≡ₚ fifo_q found ++ q_a found ++ q_b found
  ∧ futs (after sel) = futs found
  ∧ (trace sel = []
     ∨ strategy st = fcfs ∧ trace sel = [Sleep BATCH_TIMEOUT_MS]).
Proof.
  intros Hnd sel found. subst sel found. unfold select.
  destruct (strategy st) eqn:Hs.
  - destruct (select_sjf_spec st) as (rest & Hv & _ & _ & _ & Haft & Htr).
    rewrite Htr. split; [|split; [by rewrite Haft | by left]].
    rewrite Haft, deque_remove_all_filter by done. simpl.
    assert (fifo_q st ≡ₚ batch (select_sjf st) ++ rest) as Hperm
      by (by rewrite <- Hv, sorted_perm).
    rewrite (sjf_remaining _ _ _ Hnd Hperm).
    rewrite !(assoc_L (++)). by rewrite <- Hperm.
  - destruct (select_fair_spec st)
      as (pt & pr & stk & sr & Hp & Hsec & -> & _).
    cbn [batch after trace]. split; [|split; [|by left]].
    + destruct (String.eqb _ _); simpl in *; rewrite Hp, Hsec;
        solve_Permutation.
    + by destruct (String.eqb _ _).
  - destruct (select_fcfs_spec evs st)
      as (b1 & r1 & Hq & _ & _ & [(_ & _ & H2) | [_ ->]]).
    + destruct H2 as (b2 & r2 & Hq2 & _ & _ & ->).
      destruct (handle_all_set_fifo_q evs st) as (f & Hf & Hall).
      rewrite Hall in Hq2 |- *. simpl in Hq2.
      cbn [batch after trace fifo_q q_a q_b futs set_fifo_q].
      split; [|split; [done | by right]].
      rewrite Hf, Hq, <- !(assoc_L (++)). rewrite (assoc_L (++) r1 f), Hq2.
      by rewrite <- !(assoc_L (++)).
    + cbn [batch after trace fifo_q q_a q_b futs set_fifo_q].
      split; [|split; [done | by left]].
      by rewrite Hq, <- !(assoc_L (++)).
Qed.

Lemma selection_conserves_items_witness :
  batch (select [EvClassify None ["y"] "id-5"] fcfs_state)
    ++ fifo_q (after (select [EvClassify None ["y"] "id-5"] fcfs_state))
    ++ q_a (after (select [EvClassify None ["y"] "id-5"] fcfs_state))
    ++ q_b (after (select [EvClassify None ["y"] "id-5"] fcfs_state))
  ≡ₚ fifo_q (handle_all [EvClassify None ["y"] "id-5"] fcfs_state)
     ++ q_a (handle_all [EvClassify None ["y"] "id-5"] fcfs_state)
     ++ q_b (handle_all [EvClassify None ["y"] "id-5"] fcfs_state).
Proof.
  assert (NoDup (id <$> fifo_q fcfs_state)) as Hnd.
  { apply (bool_decide_unpack _). vm_compute. exact I. }
  exact (proj1 (selection_conserves_items
                  [EvClassify None ["y"] "id-5"] fcfs_state Hnd)).
Defined.

(** The ids in the queues come from the uuids that the handlers drew. *)
Lemma select_queued_ids (evs : list Event) (st : State) :
  queued_ids (after (select evs st)) ⊆+ queued_ids st ++ (evs ≫= event_uuids).
Proof.
  destruct (select_decompose evs st) as (st1 & evs' & Hevs & H1 & H2 & _).
  unfold queued_ids. fold (queued st) (queued (after (select evs st))).
  etrans; [apply fmap_submseteq, sublist_submseteq, shrinks_queued, H2|].
  destruct (handle_all_queued evs' st1) as (arr & -> & Hid & _).
  rewrite fmap_app. apply submseteq_app.
  - by apply fmap_submseteq, sublist_submseteq, shrinks_queued.
  - destruct Hevs as [-> | ->]; [|done].
    etrans; [exact Hid | apply submseteq_nil_l].
Qed.

Lemma step_queued_ids (s : Step) (st : State) :
  queued_ids (step s st) ⊆+ queued_ids st ++ step_uuids s.
Proof.
  destruct s as [e|c]; simpl.
  - destruct (handle_all_queued [e] st) as (arr & Hp & Hid & _).
    unfold queued_ids. fold (queued st) (queued (handle e st)).
    change (handle e st) with (handle_all [e] st). rewrite Hp, fmap_app.
    apply submseteq_skips_l. simpl in Hid. by rewrite app_nil_r in Hid.
  - assert (queued_ids (handle_all (during_call c)
                          (after (select (during_wait c) st)))
            ⊆+ queued_ids st ++ (during_wait c ≫= event_uuids)
                 ++ (during_call c ≫= event_uuids)) as H.
    { destruct (handle_all_queued (during_call c)
                  (after (select (during_wait c) st))) as (arr & Hp & Hid & _).
      unfold queued_ids at 1.
      fold (queued (handle_all (during_call c)
                      (after (select (during_wait c) st)))).
      rewrite Hp, fmap_app, (assoc_L (++)).
      apply submseteq_app; [apply select_queued_ids | done]. }
    unfold dispatcher_cycle. destruct (batch _).
    + simpl. etrans; [apply select_queued_ids|].
      rewrite (assoc_L (++)). by apply submseteq_inserts_r.
    + simpl. by destruct (downstream c).
Qed.

Lemma run_queued_ids (steps : list Step) (st : State) :
  queued_ids (run steps st) ⊆+ queued_ids st ++ (steps ≫= step_uuids).
Proof.
  revert st. induction steps as [|s steps IH]; intros st.
  { simpl. by rewrite app_nil_r. }
  change (run (s :: steps) st) with (run steps (step s st)).
  etrans; [apply IH|]. rewrite bind_cons, (assoc_L (++)).
  apply submseteq_skips_r, step_queued_ids.
Qed.

(** X6.  If all the uuids drawn by the handlers of a run are distinct,
    then in the state the run reaches no two queued items share an id, and
    neither do two items of the batch that the next cycle selects or an
    item of that batch and an item left queued: a work item is in one
    queue or in one batch, once. *)
Theorem reachable_ids_distinct (DEFAULT : _Strategy) (steps : list Step)
    (evs : list Event) :
  let st := run steps (init_state DEFAULT) in
  NoDup ((steps ≫= step_uuids) ++ (evs ≫= event_uuids)) →
  NoDup (queued_ids st)
  ∧ NoDup (id <$> (batch (select evs st) ++ queued (after (select evs st)))).
Proof.
  intros st Hnd.
  assert (NoDup (queued_ids st ++ (evs ≫= event_uuids))) as Hst.
  { eapply submseteq_NoDup; [|exact Hnd].
    apply submseteq_skips_r. apply (run_queued_ids steps (init_state DEFAULT)). }
  assert (NoDup (queued_ids st)) as Hq by (by apply NoDup_app in Hst as [? _]).
  split; [done|].
  destruct (select_conserves evs st) as (arr & Hp & Hid & _).
  { unfold queued_ids in Hq. rewrite fmap_app in Hq.
    by apply NoDup_app in Hq as [? _]. }
  rewrite Hp, fmap_app. eapply submseteq_NoDup; [|exact Hst].
  by apply submseteq_skips_l.
Qed.

Lemma reachable_ids_distinct_witness :
  NoDup (queued_ids (run first_fair_steps (init_state sjf))).
Proof.
  refine (proj1 (reachable_ids_distinct sjf first_fair_steps [] _)).
  apply (bool_decide_unpack _). vm_compute. exact I.
Defined.

(* ------------------------------------------------------------------ *)
(** ** What the completion of a batch writes *)

Lemma demux_lookup_any (b : list _Item) (labels : list pyval)
    (fs : gmap string Future) (k : string) :
  demux b labels fs !! k
  = resolved
      ((list_to_map (group_labels (index_map b) labels)
          : gmap string (_Item * list pyval)) !! k)
      (fs !! k).
Proof. unfold demux. apply foldl_resolve_one, group_labels_wf. Qed.

Lemma group_labels_other (b : list _Item) (labels : list pyval) (k : string) :
  k ∉ id <$> b →
  (list_to_map (group_labels (index_map b) labels)
     : gmap string (_Item * list pyval)) !! k = None.
Proof.
  intros Hk. unfold group_labels.
  rewrite list_to_map_group, list_to_map_nil.
  rewrite foldl_store_entry_other by (by apply zip_index_map_other).
  apply lookup_empty.
Qed.

(** X7.  Completing a batch, with labels or with an exception, writes
    nothing but futures of items of that batch that are not done: a future
    that is done keeps its outcome (a completion is resolved at most
    once), the future of any other item is untouched, no future appears or
    disappears, and the queues, the strategy and [last_turn] stay as they
    are. *)
Theorem complete_writes_pending_batch_futures (b : list _Item)
    (r : Downstream) (st : State) :
  (strategy (complete b r st), fifo_q (complete b r st),
   q_a (complete b r st), q_b (complete b r st), last_turn (complete b r st))
  = (strategy st, fifo_q st, q_a st, q_b st, last_turn st)
  ∧ (∀ k, futs st !! k = None → futs (complete b r st) !! k = None)
  ∧ (∀ k f, futs st !! k = Some f →
       done_ f = true ∨ k ∉ id <$> b →
       futs (complete b r st) !! k = Some f)
  ∧ (∀ k f, futs st !! k = Some f →
       ∃ f', futs (complete b r st) !! k = Some f'
             ∧ (f' = f ∨ f = Pending)).
Proof.
  split; [by destruct r|].
  destruct r as [labels | e]; simpl.
  - split; [|split].
    + intros k Hk. rewrite demux_lookup_any, Hk.
      by destruct (list_to_map _ !! k) as [[??]|].
    + intros k f Hf [Hd | Hk]; rewrite demux_lookup_any, Hf.
      * destruct (list_to_map _ !! k) as [[??]|]; [|done]. simpl.
        by rewrite Hd, andb_false_r.
      * by rewrite group_labels_other.
    + intros k f Hf. rewrite demux_lookup_any, Hf.
      destruct (list_to_map _ !! k) as [[??]|]; simpl; [|by eauto].
      destruct (forallb _ _ && _) eqn:Hc; [|by eauto].
      eexists. split; [done|]. right.
      apply andb_true_iff in Hc as [_ Hc]. by destruct f.
  - split; [|split].
    + intros k Hk. rewrite fail_batch_lookup, Hk. by case_decide.
    + intros k f Hf [Hd | Hk]; rewrite fail_batch_lookup, Hf.
      * case_decide; [|done]. simpl. unfold failed. by rewrite Hd.
      * by rewrite decide_False.
    + intros k f Hf. rewrite fail_batch_lookup, Hf.
      case_decide; simpl; [|by eauto].
      eexists. split; [done|]. unfold failed. destruct f; simpl; auto.
Qed.

Lemma complete_writes_pending_batch_futures_witness :
  futs (complete [item3; item4] (Labels [Some "code"; Some "code"; Some "x"])
          fcfs_state) !! "id-4"
  = Some Cancelled.
Proof.
  apply (proj1 (proj2 (proj2
    (complete_writes_pending_batch_futures [item3; item4]
       (Labels [Some "code"; Some "code"; Some "x"]) fcfs_state)))).
  - reflexivity.
  - left. reflexivity.
Defined.

(** The entries of the dict belong to items of the batch, and their
    buffers have the length of the sequences of their item. *)
Lemma store_label_entries (b : list _Item) itm pos lab (rr : Results) :
  itm ∈ b →
  Forall (λ e, e.2.1 ∈ b ∧ length e.2.2 = length (seqs e.2.1)) rr →
  Forall (λ e, e.2.1 ∈ b ∧ length e.2.2 = length (seqs e.2.1))
    (store_label itm pos lab rr).
Proof.
  intros Hin. induction 1 as [|[k [it buf]] rr [Hk Hl] Hrr IH]; simpl.
  { constructor; [|constructor]. simpl.
    by rewrite length_insert, length_replicate. }
  destruct (String.eqb k (id itm)); constructor; simpl in *; try done.
  by rewrite length_insert.
Qed.

Lemma group_labels_entries (b : list _Item) (labels : list pyval) :
  Forall (λ e, e.2.1 ∈ b ∧ length e.2.2 = length (seqs e.2.1))
    (group_labels (index_map b) labels).
Proof.
  unfold group_labels.
  assert (Forall (λ e : _Item * nat * pyval, e.1.1 ∈ b)
            (zip (index_map b) labels)) as Hes.
  { apply Forall_forall. intros [[itm i] lab] Hin%elem_of_zip_l.
    pose proof (index_map_items b) as Hall.
    rewrite Forall_forall in Hall. by apply (Hall (itm, i)). }
  assert (Forall (λ e : string * (_Item * list pyval),
                    e.2.1 ∈ b ∧ length e.2.2 = length (seqs e.2.1)) [])
    as Hnil by constructor.
  revert Hnil. generalize (@nil (string * (_Item * list pyval))).
  induction Hes as [|e es He _ IH]; intros rr Hrr; [done|].
  simpl. by apply IH, store_label_entries.
Qed.

Lemma forallb_is_not_None_inv (w : list pyval) :
  forallb is_not_None w = true → Forall (λ x, x ≠ None) w.
Proof.
  induction w as [|x w IH]; [constructor|]. simpl.
  intros [Hx Hw]%andb_true_iff. constructor; [by destruct x | by apply IH].
Qed.

(** X8.  Whatever the downstream returns as labels (too few, too many,
    with nulls), the demultiplexer either leaves a future as it is or
    resolves a pending future of an item of the batch with a result that
    has exactly one non-null label per sequence of that item; it never
    sets an exception and never hands out a short or padded result. *)
Theorem demux_results_well_formed (b : list _Item) (labels : list pyval)
    (fs : gmap string Future) (k : string) :
  demux b labels fs !! k = fs !! k
  ∨ ∃ itm results,
      itm ∈ b ∧ id itm = k
      ∧ fs !! k = Some Pending
      ∧ demux b labels fs !! k = Some (FutResult results)
      ∧ length results = length (seqs itm)
      ∧ Forall (λ x, x ≠ None) results.
Proof.
  rewrite demux_lookup_any.
  destruct (list_to_map _ !! k) as [[it buf]|] eqn:Hm; [|by left].
  apply elem_of_list_to_map_2 in Hm.
  pose proof (group_labels_entries b labels) as Hent.
  pose proof (group_labels_wf (index_map b) labels) as [_ Hid].
  rewrite Forall_forall in Hent, Hid.
  destruct (Hent _ Hm) as [Hin Hlen]. specialize (Hid _ Hm). simpl in *.
  destruct (fs !! k) as [f|] eqn:Hf; [|by left]. simpl.
  destruct (forallb is_not_None buf) eqn:Hall; [|by left].
  destruct f; simpl; try by left.
  right. exists it, buf. repeat split; try done.
  by apply forallb_is_not_None_inv.
Qed.

(* ------------------------------------------------------------------ *)
(** ** From the client to the server and back *)



Lemma batch_size_pos (b : list _Item) :
  b ≠ [] → Forall admissible b → 1 ≤ batch_size b.
Proof.
  destruct b as [|x b]; [done|]. intros _ Hadm.
  inversion Hadm as [|?? [Hx _] _]; subst. rewrite batch_size_cons. lia.
Qed.

(** The server accepts every non-empty batch of at most [MAX_BATCH]
    sequences, and sleeps the square of its largest [maxlen]. *)
Lemma classify_batch (b : list _Item) :
  b ≠ [] → Forall (λ itm, admissible itm ∧ item_wf itm) b →
  batch_size b ≤ MAX_BATCH →
  classification_server.classify (flatten b)
  = classification_server.ClassifyResponse (batch_maxlen b ^ 2)
      (label_of <$> flatten b).
Proof.
  intros Hne Hall Hle.
  assert (Forall admissible b ∧ Forall item_wf b) as [Hadm Hwf].
  { rewrite <- Forall_and. exact Hall. }
  pose proof (batch_size_pos b Hne Hadm) as Hpos.
  unfold classification_server.classify. rewrite length_flatten.
  unfold MAX_BATCH in Hle.
  apply Nat.leb_le in Hpos as ->. apply Nat.leb_le in Hle as ->. simpl.
  rewrite max_len_flatten; [done | done | by apply flatten_nonempty].
Qed.














(* ------------------------------------------------------------------ *)
(** ** Shortest job first *)

Lemma sorted_head (q : list _Item) (x : _Item) (r : list _Item) :
  sorted q = x :: r →
  ∃ pre post,
    q = pre ++ x :: post
    ∧ Forall (λ y, maxlen x < maxlen y) pre
    ∧ Forall (λ y, maxlen x ≤ maxlen y) post.
Proof.
  revert x r. induction q as [|y q IH]; intros x r; [done|]. simpl.
  destruct (sorted q) as [|z r'] eqn:Hs.
  { assert (q = []) as -> by (apply Permutation_nil_r; by rewrite <- sorted_perm, Hs).
    simpl. intros [= <- <-]. by exists [], []. }
  destruct (IH z r' eq_refl) as (pre & post & -> & Hpre & Hpost).
  simpl. unfold _Item__lt__. destruct (maxlen z <? maxlen y)%nat eqn:Hlt.
  - apply Nat.ltb_lt in Hlt. intros [= <- _].
    exists (y :: pre), post. split; [done|]. split; [by constructor | done].
  - apply Nat.ltb_ge in Hlt. intros [= <- _].
    exists [], (pre ++ z :: post). split; [done|]. split; [constructor|].
    apply Forall_app. split; [|constructor].
    + eapply Forall_impl; [exact Hpre|]. simpl. lia.
    + done.
    + eapply Forall_impl; [exact Hpost|]. simpl. lia.
Qed.

(** X11.  Under SJF with a non-empty FIFO whose items are within the
    bounds, the batch opens with an item of smallest [maxlen], and among
    the items of that [maxlen] with the one that arrived first: every item
    queued before it has a strictly larger [maxlen], every item queued
    after it has one at least as large. *)
Theorem sjf_opens_with_shortest (evs : list Event) (st : State) :
  strategy st = sjf →
  fifo_q st ≠ [] →
  Forall admissible (fifo_q st) →
  ∃ x pre post,
    head (batch (select evs st)) = Some x
    ∧ fifo_q st = pre ++ x :: post
    ∧ Forall (λ y, maxlen x < maxlen y) pre
    ∧ Forall (λ y, maxlen x ≤ maxlen y) post.
Proof.
  intros Hs Hne Hadm. unfold select. rewrite Hs.
  destruct (select_sjf_spec st) as (rest & Hv & _ & _ & Hstop & _).
  destruct (sorted (fifo_q st)) as [|x r] eqn:Hsorted.
  { exfalso. apply Hne, Permutation_nil_r. by rewrite <- sorted_perm, Hsorted. }
  destruct (sorted_head _ _ _ Hsorted) as (pre & post & Hq & Hpre & Hpost).
  exists x, pre, post. split; [|done].
  destruct (batch (select_sjf st)) as [|y b]; [|by injection Hv as -> _].
  simpl in Hv. subst rest. exfalso.
  specialize (Hstop x r eq_refl). simpl in Hstop.
  rewrite Hq, Forall_app, Forall_cons in Hadm.
  destruct Hadm as (_ & [_ Hx] & _). lia.
Qed.

Lemma sjf_opens_with_shortest_witness :
  ∃ x pre post,
    head (batch (select [] sjf_state)) = Some x
    ∧ fifo_q sjf_state = pre ++ x :: post.
Proof.
  assert (Forall admissible (fifo_q sjf_state)) as Hadm.
  { unfold admissible, MAX_BATCH. repeat constructor; simpl; lia. }
  assert (fifo_q sjf_state ≠ []) as Hne by discriminate.
  destruct (sjf_opens_with_shortest [] sjf_state eq_refl Hne Hadm)
    as (x & pre & post & Hh & Hq & _).
  exists x, pre, post. split; [exact Hh | exact Hq].
Defined.

(* ------------------------------------------------------------------ *)
(** ** Batches and the server's delay *)

Lemma batch_maxlen_bound (b : list _Item) (itm : _Item) :
  itm ∈ b → maxlen itm ≤ batch_maxlen b.
Proof.
  intros Hin. apply foldr_max_bound, list_elem_of_fmap. by exists itm.
Qed.

(** X12.  The server accepts every non-empty batch of at most [MAX_BATCH]
    sequences made of well-formed items, and its delay for the batch is
    the square of the largest [maxlen] in it, in microseconds: an item
    batched with others waits for the longest sequence of the batch, which
    is never shorter than its own. *)
Theorem batch_delay_is_largest_maxlen (b : list _Item) :
  b ≠ [] →
  Forall (λ itm, admissible itm ∧ item_wf itm) b →
  batch_size b ≤ MAX_BATCH →
  ∃ results,
    classification_server.classify (flatten b)
    = classification_server.ClassifyResponse (batch_maxlen b ^ 2) results
    ∧ length results = batch_size b
    ∧ (∃ itm, itm ∈ b ∧ maxlen itm = batch_maxlen b)
    ∧ ∀ itm, itm ∈ b → maxlen itm ^ 2 ≤ batch_maxlen b ^ 2.
Proof.
  intros Hne Hall Hle. eexists. split; [by apply classify_batch|].
  split; [by rewrite length_fmap, length_flatten|]. split.
  - assert (maxlen <$> b ≠ []) as Hne' by (by destruct b).
    apply foldr_max_attained, list_elem_of_fmap in Hne' as (itm & Hm & Hin).
    by exists itm.
  - intros itm Hin. apply Nat.pow_le_mono_l. by apply batch_maxlen_bound.
Qed.

Lemma batch_delay_is_largest_maxlen_witness :
  ∃ results,
    classification_server.classify (flatten [item3; item1])
    = classification_server.ClassifyResponse 9 results.
Proof.
  assert ([item3; item1] ≠ []) as Hne by discriminate.
  assert (Forall (λ itm, admissible itm ∧ item_wf itm) [item3; item1]) as Hall.
  { unfold admissible, item_wf, MAX_BATCH.
    repeat constructor; simpl; lia. }
  assert (batch_size [item3; item1] ≤ MAX_BATCH) as Hle
    by (unfold MAX_BATCH; simpl; lia).
  destruct (batch_delay_is_largest_maxlen _ Hne Hall Hle)
    as (results & Hc & _).
  exists results. exact Hc.
Defined.

Lemma length_le_batch_size (b : list _Item) :
  Forall admissible b → length b ≤ batch_size b.
Proof.
  induction 1 as [|x b [Hx _] _ IH]; [done|].
  rewrite batch_size_cons. simpl. lia.
Qed.

(** X13.  In a state whose queued items are within the bounds, a batch
    holds at most [MAX_BATCH] items, and an item with [MAX_BATCH]
    sequences is dispatched alone. *)
Theorem full_item_dispatched_alone (evs : list Event) (st : State) :
  queue_invariant st →
  length (batch (select evs st)) ≤ MAX_BATCH
  ∧ ∀ itm, itm ∈ batch (select evs st) →
      length (seqs itm) = MAX_BATCH →
      batch (select evs st) = [itm].
Proof.
  intros Hinv.
  destruct (queue_invariant_select evs st Hinv) as [_ Hall].
  destruct (select_total evs st) as [_ Hle].
  assert (Forall admissible (batch (select evs st))) as Hadm.
  { eapply Forall_impl; [exact Hall|]. by intros ? [? _]. }
  split.
  { etrans; [by apply length_le_batch_size | done]. }
  intros itm Hin Hfull.
  apply list_elem_of_split in Hin as (pre & post & Hb).
  rewrite Hb in Hle, Hadm |- *.
  rewrite batch_size_app, batch_size_cons in Hle.
  rewrite Forall_app, Forall_cons in Hadm. destruct Hadm as (Hpre & _ & Hpost).
  pose proof (length_le_batch_size _ Hpre).
  pose proof (length_le_batch_size _ Hpost).
  destruct pre; [|simpl in *; lia]. destruct post; [done | simpl in *; lia].
Qed.

Lemma full_item_dispatched_alone_witness :
  length (batch (select [] fair_state)) ≤ MAX_BATCH.
Proof.
  refine (proj1 (full_item_dispatched_alone [] fair_state _)).
  unfold queue_invariant, admissible, item_wf, MAX_BATCH.
  repeat split; repeat constructor; simpl; try lia; done.
Defined.

(* ------------------------------------------------------------------ *)
(** ** The dispatcher loop *)

Lemma posts_app (tr1 tr2 : list Effect) : posts (tr1 ++ tr2) = posts tr1 + posts tr2.
Proof. unfold posts. by rewrite filter_app, length_app. Qed.

Lemma posts_select (evs : list Event) (st : State) :
  posts (trace (select evs st)) = 0.
Proof.
  pose proof (select_trace evs st) as Htr. unfold posts.
  rewrite filter_none; [done|].
  eapply Forall_impl; [exact Htr|]. intros e -> Hp. exact Hp.
Qed.

Lemma posts_cycle (c : Cycle) (st : State) :
  posts (dispatcher_cycle c st).2
  = match batch (select (during_wait c) st) with [] => 0 | _ => 1 end.
Proof.
  unfold dispatcher_cycle.
  destruct (batch _); cbn [snd];
    change (Sleep 0 :: ?tr ++ ?l) with ([Sleep 0] ++ tr ++ l);
    by rewrite !posts_app, posts_select.
Qed.

(** X14.  Each turn of the dispatcher loop starts by yielding, makes one
    downstream call if it selected a batch and none otherwise, and sleeps
    the idle interval exactly when it selected none; so the dispatcher
    makes at most one downstream call per turn, and the state it reaches
    is the one of the run made of its cycles. *)
Theorem dispatcher_one_call_per_cycle (cycles : list Cycle) (st : State) :
  posts (_dispatcher cycles st).2 ≤ length cycles
  ∧ (_dispatcher cycles st).1 = run (SCycle <$> cycles) st
  ∧ ∀ c,
      head (dispatcher_cycle c st).2 = Some (Sleep 0)
      ∧ posts (dispatcher_cycle c st).2
        = match batch (select (during_wait c) st) with [] => 0 | _ => 1 end
      ∧ (Sleep IDLE_SLEEP_MS ∈ (dispatcher_cycle c st).2
         ↔ batch (select (during_wait c) st) = [])
      ∧ (Post (flatten (batch (select (during_wait c) st)))
           ∈ (dispatcher_cycle c st).2
         ↔ batch (select (during_wait c) st) ≠ []).
Proof.
  split; [|split].
  - revert st. induction cycles as [|c cycles IH]; intros st; [done|].
    change (_dispatcher (c :: cycles) st)
      with (let '(st1, tr1) := dispatcher_cycle c st in
            let '(st2, tr2) := _dispatcher cycles st1 in (st2, tr1 ++ tr2)).
    pose proof (posts_cycle c st) as Hc.
    destruct (dispatcher_cycle c st) as [st1 tr1]. specialize (IH st1).
    destruct (_dispatcher cycles st1) as [st2 tr2]. cbn [snd length] in *.
    rewrite posts_app, Hc. destruct (batch _); lia.
  - revert st. induction cycles as [|c cycles IH]; intros st; [done|].
    transitivity (_dispatcher cycles (dispatcher_cycle c st).1).1.
    { change (_dispatcher (c :: cycles) st)
        with (let '(st1, tr1) := dispatcher_cycle c st in
              let '(st2, tr2) := _dispatcher cycles st1 in (st2, tr1 ++ tr2)).
      destruct (dispatcher_cycle c st) as [st1 tr1]. cbn [fst].
      by destruct (_dispatcher cycles st1) as [st2 tr2]. }
    by rewrite IH.
  - intros c. split; [|split; [apply posts_cycle|]].
    { unfold dispatcher_cycle. by destruct (batch _). }
    pose proof (select_trace (during_wait c) st) as Htr.
    rewrite Forall_forall in Htr. unfold dispatcher_cycle.
    destruct (batch _) as [|x b]; cbn [snd];
      rewrite !elem_of_cons, !elem_of_app, !list_elem_of_singleton.
    + split; split; try done; try tauto.
      intros [? | [H | ?]]; try done. by apply Htr in H.
    + split; split; try done; try tauto.
      intros [? | [H | ?]]; try done. by apply Htr in H.
Qed.

(* ------------------------------------------------------------------ *)
(** ** The control plane and the header *)

(** X15.  A strategy switch moves no queued item and touches no future or
    [last_turn]; the last switch wins; and the next accepted request is
    enqueued by the new strategy alone, whatever the old one was: at the
    tail of the global FIFO under SJF and FCFS, at the tail of one class
    queue under FAIR. *)
Theorem strategy_switch_routes_next_request (new : _Strategy)
    (h : option string) (body : list string) (uuid : string) (st : State) :
  1 ≤ length body ≤ MAX_BATCH →
  (fifo_q (change new st), q_a (change new st), q_b (change new st),
   last_turn (change new st), futs (change new st))
  = (fifo_q st, q_a st, q_b st, last_turn st, futs st)
  ∧ strategy (change new st) = new
  ∧ (∀ old, change new (change old st) = change new st)
  ∧ ∃ itm,
      (proxy_classify h body uuid (change new st)).1 = Enqueued itm
      ∧ let st' := (proxy_classify h body uuid (change new st)).2 in
        strategy st' = new
        ∧ match new with
          | fair =>
              fifo_q st' = fifo_q st
              ∧ ((q_a st' = q_a st ++ [itm] ∧ q_b st' = q_b st)
                 ∨ (q_a st' = q_a st ∧ q_b st' = q_b st ++ [itm]))
          | _ =>
              fifo_q st' = fifo_q st ++ [itm]
              ∧ q_a st' = q_a st ∧ q_b st' = q_b st
          end.
Proof.
  intros [H1 H2]. split; [done|]. split; [done|]. split; [done|].
  unfold proxy_classify. apply Nat.leb_le in H1, H2. rewrite H1, H2. simpl.
  unfold _Item__init__. destruct (max_len body) as [m|] eqn:Hm.
  2: { destruct body; [done | discriminate]. }
  simpl. eexists. split; [done|].
  destruct new; simpl; try done.
  destruct (String.eqb _ _); simpl; split; try done; split; auto.
Qed.

Lemma strategy_switch_routes_next_request_witness :
  ∃ itm,
    (proxy_classify (Some "b") ["x"] "id-9" (change fcfs fair_state)).1
    = Enqueued itm.
Proof.
  assert (1 ≤ length ["x"] ≤ MAX_BATCH) as Hb by (unfold MAX_BATCH; simpl; lia).
  destruct (strategy_switch_routes_next_request fcfs (Some "b") ["x"] "id-9"
              fair_state Hb) as (_ & _ & _ & itm & Hi & _).
  exists itm. exact Hi.
Defined.

Lemma upper_ascii_idemp (c : ascii) : upper_ascii (upper_ascii c) = upper_ascii c.
Proof. by destruct c as [[] [] [] [] [] [] [] []]. Qed.

Lemma upper_idemp (s : string) : upper (upper s) = upper s.
Proof.
  induction s as [|c s IH]; [done|]. simpl. by rewrite upper_ascii_idemp, IH.
Qed.

(** X16.  The customer class is read case-insensitively: for an ASCII
    header, normalising twice is normalising once, the normalised value has
    the length of the header and is ASCII again, and the request is handled
    exactly as the request with the uppercased header. *)
Theorem customer_header_case_insensitive (h : string) (body : list string)
    (uuid : string) (st : State) :
  isascii h = true →
  upper (upper h) = upper h
  ∧ String.length (upper h) = String.length h
  ∧ isascii (upper h) = true
  ∧ proxy_classify (Some (upper h)) body uuid st
    = proxy_classify (Some h) body uuid st.
Proof.
  intros Hascii. split; [apply upper_idemp|]. split; [|split].
  - clear Hascii. induction h as [|c h IH]; [done|]. simpl. by rewrite IH.
  - induction h as [|c h IH]; [done|]. simpl in *.
    apply andb_true_iff in Hascii as [Hc Hh]. rewrite IH by done.
    rewrite andb_true_r. clear -Hc.
    by destruct c as [[] [] [] [] [] [] [] []].
  - unfold proxy_classify. simpl. by rewrite upper_idemp.
Qed.

Lemma customer_header_case_insensitive_witness :
  proxy_classify (Some (upper "b")) ["x"] "id-9" fair_state
  = proxy_classify (Some "b") ["x"] "id-9" fair_state.
Proof.
  apply (customer_header_case_insensitive "b" ["x"] "id-9" fair_state).
  reflexivity.
Defined.

(* ------------------------------------------------------------------ *)
(** ** The load generator *)

Lemma max_len_uniform (k : nat) (l : list string) :
  Forall (λ s, String.length s = k) l → l ≠ [] → max_len l = Some k.
Proof.
  intros Hl Hne. rewrite max_len_foldr by done. f_equal.
  induction Hl as [|x l Hx Hl IH]; [done|].
  rewrite fmap_cons. cbn [foldr]. rewrite Hx.
  destruct l as [|y l]; [simpl; lia|]. rewrite IH by done. lia.
Qed.

(** X17.  Whatever the random draws, a burst of [customer_a] is five
    snippets of five characters: the proxy accepts it, as an item of
    [MAX_BATCH] sequences with [maxlen] 5, and the server labels each
    snippet [code] exactly when its draw was below one half. *)
Theorem customer_a_burst (draw : nat → bool) (uuid : string) (st : State) :
  let body := simulate_clients.customer_a_snippets draw in
  length body = MAX_BATCH
  ∧ Forall (λ s, String.length s = 5) body
  ∧ (∃ itm,
       (proxy_classify (Some "A") body uuid st).1 = Enqueued itm
       ∧ cid itm = "A" ∧ seqs itm = body ∧ maxlen itm = 5)
  ∧ ∀ i s, body !! i = Some s →
      label_of s = if draw i then "code" else "not code".
Proof.
  intros body. subst body. unfold simulate_clients.customer_a_snippets.
  cbn [seq fmap list_fmap].
  split; [done|]. split.
  { repeat constructor; by destruct (draw _). }
  split.
  - unfold proxy_classify. cbn [length]. simpl negb. cbv iota.
    unfold _Item__init__.
    rewrite (max_len_uniform 5); [|repeat constructor; by destruct (draw _) | done].
    simpl. eexists. split; [done|]. done.
  - intros i s Hs.
    do 5 (destruct i as [|i]; [injection Hs as <-; by destruct (draw _)|]).
    done.
Qed.

(* ------------------------------------------------------------------ *)
(** ** Idle cycles and the removal under SJF *)

Lemma set_fifo_q_same (st : State) : set_fifo_q (fifo_q st) st = st.
Proof. by destruct st. Qed.

(** X18.  A cycle that finds the queues of the active strategy empty
    changes nothing and calls nobody: it yields, sleeps the idle interval
    and leaves the state, stranded items of the other queues included,
    exactly as it was. *)
Theorem idle_cycle_changes_nothing (c : Cycle) (st : State) :
  ¬ active_queue_nonempty st →
  dispatcher_cycle c st = (st, [Sleep 0; Sleep IDLE_SLEEP_MS]).
Proof.
  unfold active_queue_nonempty, dispatcher_cycle, select.
  destruct (strategy st) eqn:Hs; intros Hempty.
  - assert (fifo_q st = []) as Hq by (by destruct (fifo_q st); [|destruct Hempty]).
    unfold select_sjf. by rewrite Hq.
  - assert (q_a st = [] ∧ q_b st = []) as [Ha Hb].
    { destruct (q_a st), (q_b st); try done; exfalso; apply Hempty; auto. }
    unfold select_fair. by rewrite Ha, Hb.
  - assert (fifo_q st = []) as Hq by (by destruct (fifo_q st); [|destruct Hempty]).
    unfold select_fcfs. rewrite Hq. simpl.
    by rewrite <- Hq, set_fifo_q_same.
Qed.

Lemma idle_cycle_changes_nothing_witness :
  dispatcher_cycle failing_cycle stranded_state
  = (stranded_state, [Sleep 0; Sleep IDLE_SLEEP_MS]).
Proof.
  apply idle_cycle_changes_nothing. simpl. intros H. by apply H.
Defined.

(** X19.  Under SJF with distinct ids, [fifo_q.remove(item)] never fails:
    each admitted item is still in the FIFO when it is removed, after the
    removal of those admitted before it, and it is gone afterwards. *)
Theorem sjf_remove_finds_item (evs : list Event) (st : State) :
  strategy st = sjf →
  NoDup (id <$> fifo_q st) →
  ∀ before x later,
    batch (select evs st) = before ++ x :: later →
    x ∈ foldl (λ q y, deque_remove y q) (fifo_q st) before
    ∧ (x ∉ foldl (λ q y, deque_remove y q) (fifo_q st) (before ++ [x]))
    ∧ (x ∉ fifo_q (after (select evs st))).
Proof.
  intros Hs Hnd before x later Hb. unfold select in *. rewrite Hs in *.
  destruct (select_sjf_spec st) as (rest & Hv & _ & _ & _ & Haft & _).
  rewrite Hb in Hv, Haft.
  assert (fifo_q st ≡ₚ (before ++ x :: later) ++ rest) as Hperm
    by (by rewrite <- Hv, sorted_perm).
  assert (NoDup (id <$> (before ++ x :: later) ++ rest)) as Hnd'
    by (by rewrite <- Hperm).
  rewrite !deque_remove_all_filter by done.
  rewrite Haft. simpl. rewrite deque_remove_all_filter by done.
  rewrite !list_elem_of_filter.
  split; [split|split].
  - rewrite !fmap_app, fmap_cons in Hnd'.
    apply NoDup_app in Hnd' as [Hnd' _].
    apply NoDup_app in Hnd' as (_ & Hdisj & _).
    intros Hin. apply (Hdisj _ Hin). by left.
  - rewrite Hperm, !elem_of_app, elem_of_cons. tauto.
  - intros [Hn _]. apply Hn. rewrite fmap_app, elem_of_app. right.
    simpl. by left.
  - intros [Hn _]. apply Hn. rewrite fmap_app, fmap_cons, elem_of_app.
    right. by left.
Qed.

Lemma sjf_remove_finds_item_witness :
  item1 ∈ foldl (λ q y, deque_remove y q) (fifo_q sjf_state) [].
Proof.
  assert (NoDup (id <$> fifo_q sjf_state)) as Hnd.
  { apply (bool_decide_unpack _). vm_compute. exact I. }
  apply (sjf_remove_finds_item [] sjf_state eq_refl Hnd [] item1 []).
  reflexivity.
Defined.
